(** * shellc: the history ring and the command dispatcher of [shell.c]

    A shallow embedding of [src/shell.c].  The global variables of the C
    file become one record, C [int]s are integers with their wrap-around
    written out, the ring buffer is a finite map from slot index to entry,
    and every function of the C file is a computation in a small monad that
    threads the globals, records the observable events (standard output,
    ring-slot accesses, process creation) and may terminate the process.

    Command texts are C strings that fit the [command] member, that is
    shorter than [maxLen]; these are modelled by [string]. *)

From Stdlib Require Import ZArith String Ascii List Lia.
From stdpp Require Import base tactics option list gmap strings pretty.

Open Scope Z_scope.

(** ** Constants and machine integers *)

Definition maxLen : Z := 1000.
Definition ringSize : Z := 10.

Definition INT_MAX : Z := 2147483647.

(** Conversion of a mathematical integer to [int] (two's complement) and to
    [unsigned int]. *)
Definition wrap_int (z : Z) : Z := (z + 2147483648) mod 4294967296 - 2147483648.
Definition to_uint (z : Z) : Z := z mod 4294967296.

(** ** Data model *)

(** [history_t]: one stored command. *)
Record history_t := { command : string; commandID : Z }.

(** Static storage is zero-initialised. *)
Definition zero_entry : history_t := {| command := EmptyString; commandID := 0 |}.

(** The globals [ringStart], [ringEnd], [ringCount], [cmdID], [ringBuffer]. *)
Record shell := {
  ringStart : Z;
  ringEnd : Z;
  ringCount : Z;
  cmdID : Z;
  ringBuffer : gmap Z history_t
}.

Definition init : shell :=
  {| ringStart := -1; ringEnd := 0; ringCount := 0; cmdID := 1; ringBuffer := ∅ |}.

Definition slot (st : shell) (i : Z) : history_t :=
  default zero_entry (ringBuffer st !! i).

Definition set_ringStart (v : Z) (st : shell) : shell :=
  {| ringStart := v; ringEnd := ringEnd st; ringCount := ringCount st;
     cmdID := cmdID st; ringBuffer := ringBuffer st |}.
Definition set_ringEnd (v : Z) (st : shell) : shell :=
  {| ringStart := ringStart st; ringEnd := v; ringCount := ringCount st;
     cmdID := cmdID st; ringBuffer := ringBuffer st |}.
Definition set_ringCount (v : Z) (st : shell) : shell :=
  {| ringStart := ringStart st; ringEnd := ringEnd st; ringCount := v;
     cmdID := cmdID st; ringBuffer := ringBuffer st |}.
Definition set_cmdID (v : Z) (st : shell) : shell :=
  {| ringStart := ringStart st; ringEnd := ringEnd st; ringCount := ringCount st;
     cmdID := v; ringBuffer := ringBuffer st |}.
Definition set_slot (i : Z) (e : history_t) (st : shell) : shell :=
  {| ringStart := ringStart st; ringEnd := ringEnd st; ringCount := ringCount st;
     cmdID := cmdID st; ringBuffer := <[i := e]> (ringBuffer st) |}.

(** A [char*] argument of the C functions: either a buffer outside the ring
    (the local [cmdLine] of [readCommand]) or the [command] member of a ring
    slot, which [callHist] passes on to [programCall]. *)
Inductive strptr :=
| Buf (s : string)
| InRing (i : Z).

(** ** Events *)

#[warnings="-register-all"]
Inductive event :=
| Stdout (s : string)           (* printf followed by fflush *)
| SlotRead (i : Z)              (* a read of ringBuffer[i] *)
| SlotWrite (i : Z)             (* a write to ringBuffer[i] *)
| Signal                        (* signal(SIGCHLD, handler) *)
| ForkFailed                    (* fork() < 0 *)
| Forked (child : list event) (status : option Z)
                                (* fork() > 0: the events of the child and
                                   its exit status, if it calls exit *)
| Execvp (argv : list string) (ok : bool)
| Waitpid.                      (* waitpid(pid, NULL, 0) in the parent *)

(** What the operating system answers during one dispatch: whether [fork]
    succeeds and whether [execvp] finds and starts the program. *)
Record os_reply := { fork_ok : bool; exec_ok : bool }.

(** ** The monad *)

Inductive res (A : Type) :=
| Ret (a : A) (st : shell)
| Exit (code : Z).
Arguments Ret {A} a st.
Arguments Exit {A} code.

Definition M (A : Type) : Type := shell → list event * res A.

#[global] Instance M_ret : MRet M := λ A a st, ([], Ret a st).
#[global] Instance M_bind : MBind M := λ A B f m st,
  match m st with
  | (t, Ret a st') => let '(t', r) := f a st' in (t ++ t', r)
  | (t, Exit c) => (t, Exit c)
  end.

Definition get_shell : M shell := λ st, ([], Ret st st).
Definition modify (f : shell → shell) : M unit := λ st, ([], Ret tt (f st)).
Definition emit (e : event) : M unit := λ st, ([e], Ret tt st).
Definition exit_ {A} (code : Z) : M A := λ _, ([], Exit code).
Definition printf (s : string) : M unit := emit (Stdout s).

(** [fork() == 0] branch: the child runs on a copy of the globals; the
    parent sees neither its writes nor its return. *)
Definition spawn (child : M unit) : M unit := λ st,
  let '(t, r) := child st in
  ([Forked t (match r with Exit c => Some c | Ret _ _ => None end)], Ret tt st).

(** The events of a computation and the globals it leaves behind. *)
Definition trace_of {A} (m : M A) (st : shell) : list event := fst (m st).
Definition shell_of {A} (m : M A) (st : shell) : shell :=
  match snd (m st) with
  | Ret _ st' => st'
  | Exit _ => st
  end.

(** Reads and writes of ring slots.  [store_command] is the [strcpy] into
    the member [char command[maxLen]]: it describes the copy for a text
    that fits the member, terminator included ([fits_command] below); a
    longer text overruns the member, and what the slot then holds is not
    described by this model.  The statements about stored texts carry the
    bound as a hypothesis. *)
Definition load_commandID (i : Z) : M Z :=
  emit (SlotRead i);; st ← get_shell; mret (commandID (slot st i)).
Definition load_command (i : Z) : M string :=
  emit (SlotRead i);; st ← get_shell; mret (command (slot st i)).
Definition store_command (i : Z) (s : string) : M unit :=
  emit (SlotWrite i);;
  modify (λ st, set_slot i {| command := s; commandID := commandID (slot st i) |} st).
Definition store_commandID (i : Z) (v : Z) : M unit :=
  emit (SlotWrite i);;
  modify (λ st, set_slot i {| command := command (slot st i); commandID := v |} st).

Definition load_str (p : strptr) : M string :=
  match p with
  | Buf s => mret s
  | InRing i => load_command i
  end.

(** ** The history ring *)

(** [indexer]: the next index of the ring, on the value of [*index]. *)
Definition indexer (index : Z) : Z :=
  let temp := wrap_int (index + 1) in
  if ringSize <=? temp then 0 else temp.

(** [recHistory]. *)
Definition recHistory (cmdLine : strptr) : M unit :=
  st ← get_shell;
  if ringCount st <? ringSize then
    modify (λ st, set_ringStart (indexer (ringStart st)) st);;
    s ← load_str cmdLine;
    st ← get_shell;
    store_command (ringStart st) s;;
    store_commandID (ringStart st) (to_uint (cmdID st));;
    modify (λ st, set_cmdID (wrap_int (cmdID st + 1)) st);;
    st ← get_shell;
    (if ringCount st =? ringSize
     then modify (λ st, set_ringCount (wrap_int (ringCount st + 1)) st)
     else mret tt);;
    modify (λ st, set_ringCount (wrap_int (ringCount st + 1)) st)
  else
    modify (λ st, set_ringStart (indexer (ringStart st)) st);;
    modify (λ st, set_ringEnd (indexer (ringEnd st)) st);;
    s ← load_str cmdLine;
    st ← get_shell;
    store_command (ringStart st) s;;
    store_commandID (ringStart st) (to_uint (cmdID st));;
    modify (λ st, set_cmdID (wrap_int (cmdID st + 1)) st).

Definition nl : string := String "010"%char EmptyString.

(** The line [printf("       %d %s\n", commandID, command)] prints; [%d]
    shows the [unsigned int] as an [int]. *)
Definition format_entry (e : history_t) : string :=
  "       " +:+ pretty (wrap_int (commandID e)) +:+ " " +:+ command e +:+ nl.

(** The [for] loop of [history], [n] iterations left.  [ringCount] does not
    change while the loop runs, so the number of iterations is fixed when it
    starts. *)
Fixpoint history_loop (n : nat) (index : Z) : M unit :=
  match n with
  | O => mret tt
  | S n' =>
      id ← load_commandID index;
      s ← load_command index;
      printf (format_entry {| command := s; commandID := id |});;
      history_loop n' (indexer index)
  end.

(** [history]. *)
Definition history (cmdLine : strptr) : M unit :=
  recHistory cmdLine;;
  st ← get_shell;
  history_loop (Z.to_nat (ringCount st)) (ringEnd st).

(** ** The process runner *)

(** The [pid == 0] branch of [foreground] and [background]. When [execvp]
    succeeds the process image is replaced and nothing of [shell.c] runs
    any more. *)
Definition child_exec (cmdParsed : list string) (cmdLine : strptr) (ok : bool) : M unit :=
  emit (Execvp cmdParsed ok);;
  if ok then mret tt
  else
    s ← load_str cmdLine;
    printf (s +:+ ": command not found" +:+ nl);;
    exit_ 0.

Definition fork_failure : M unit :=
  emit ForkFailed;;
  printf ("error in forking" +:+ nl);;
  exit_ (-1).

(** [foreground]. *)
Definition foreground (cmdParsed : list string) (cmdLine : strptr) (os : os_reply) : M unit :=
  if fork_ok os then
    spawn (child_exec cmdParsed cmdLine (exec_ok os));;
    emit Waitpid
  else fork_failure.

(** [background]. *)
Definition background (cmdParsed : list string) (cmdLine : strptr) (os : os_reply) : M unit :=
  emit Signal;;
  if fork_ok os then spawn (child_exec cmdParsed cmdLine (exec_ok os))
  else fork_failure.

(** [programCall]. *)
Definition programCall (cmdParsed : list string) (cmdLine : strptr) (bg : Z)
    (os : os_reply) : M unit :=
  s ← load_str cmdLine;
  if String.eqb s "history" then history cmdLine
  else if bg =? 0 then
    foreground cmdParsed cmdLine os;;
    recHistory cmdLine
  else
    background cmdParsed cmdLine os;;
    recHistory cmdLine.

(** ** C library functions used by the read-eval loop *)

Definition isspace (c : ascii) : bool :=
  let n := nat_of_ascii c in
  (Nat.eqb n 32 || (Nat.leb 9 n && Nat.leb n 13))%bool.

Definition digit_of (c : ascii) : option Z :=
  let n := nat_of_ascii c in
  if (Nat.leb 48 n && Nat.leb n 57)%bool then Some (Z.of_nat n - 48) else None.

Fixpoint atoi_digits (s : string) (acc : Z) : Z :=
  match s with
  | EmptyString => acc
  | String c s' =>
      match digit_of c with
      | Some d => atoi_digits s' (10 * acc + d)
      | None => acc
      end
  end.

Definition atoi_signed (s : string) : Z :=
  match s with
  | String "-" s' => - atoi_digits s' 0
  | String "+" s' => atoi_digits s' 0
  | _ => atoi_digits s 0
  end.

Fixpoint skip_space (s : string) : string :=
  match s with
  | String c s' => if isspace c then skip_space s' else s
  | EmptyString => EmptyString
  end.

(** [atoi] as [(int) strtol(s, NULL, 10)]: leading white space, an optional
    sign, the longest run of digits; no digits give 0; a value outside
    [long] is clamped before the conversion to [int]. *)
Definition atoi (s : string) : Z :=
  let v := atoi_signed (skip_space s) in
  wrap_int (Z.max (-9223372036854775808) (Z.min 9223372036854775807 v)).

(** What [cmdLine] holds after [strtok(cmdLine, "\n")]: leading newlines
    are skipped and stay, the token that follows is cut at its first
    newline; a buffer of newlines only is left as it is. *)
Fixpoint until_nl (s : string) : string :=
  match s with
  | EmptyString => EmptyString
  | String c s' => if Ascii.eqb c "010" then EmptyString else String c (until_nl s')
  end.

Fixpoint strtok_nl (s : string) : string :=
  match s with
  | EmptyString => EmptyString
  | String c s' =>
      if Ascii.eqb c "010" then String c (strtok_nl s') else String c (until_nl s')
  end.

(** Modelled from the spec: the tokenizer behind [parseCommand] of
    [parser.h], whose source is not part of [shell.c].  It splits the line on
    white space; a last token [&] is the background marker, which is removed
    and sets the flag; an empty or all-white-space line gives no token. *)
Fixpoint split_ws (s : string) (cur : string) : list string :=
  match s with
  | EmptyString => match cur with EmptyString => [] | _ => [cur] end
  | String c s' =>
      if isspace c then
        match cur with
        | EmptyString => split_ws s' EmptyString
        | _ => cur :: split_ws s' EmptyString
        end
      else split_ws s' (cur +:+ String c EmptyString)
  end.

(** Modelled from the spec: [parseCommand] itself, with the value it leaves
    in [bg]; the flag is set from the line alone. *)
Definition tokenize (line : string) (bg : Z) : list string * Z :=
  let toks := split_ws line EmptyString in
  match last toks with
  | Some "&"%string => (removelast toks, 1)
  | _ => (toks, 0)
  end.

(** ** Reaping of background children *)

(** The children of the shell as the kernel sees them: those still running
    and those that have terminated and wait to be collected. *)
Record children := { running : nat; terminated : nat }.

Inductive wait_result :=
| Reaped (k : children)   (* one terminated child collected *)
| NoChild                 (* no child at all: returns -1 at once *)
| Blocks.                 (* children run, none has terminated: the call waits *)

(** [waitpid(-1, NULL, 0)] as POSIX describes it. *)
Definition waitpid_any (k : children) : wait_result :=
  match terminated k with
  | S z => Reaped {| running := running k; terminated := z |}
  | O => match running k with
         | O => NoChild
         | S _ => Blocks
         end
  end.

(** [handler]. *)
Definition handler (sigNum : Z) (k : children) : wait_result := waitpid_any k.

Definition SIGCHLD : Z := 17.

(** ** The dispatcher and the read-eval loop *)

(** [*s == '!'] and [s + 1] on a C string. *)
Definition first_is_bang (s : string) : bool :=
  match s with
  | String c _ => Ascii.eqb c "!"
  | EmptyString => false
  end.

Definition from_second (s : string) : string :=
  match s with
  | String _ s' => s'
  | EmptyString => EmptyString
  end.

Section Dispatcher.

(** [parseCommand(line, &bg)] of [parser.h]: the argument vector and the
    value left in [bg]. *)
Variable parseCommand : string → Z → list string * Z.

(** The [for] loop of [callHist], [n] iterations left, followed by the
    statements after the loop.  The ring changes only inside [programCall],
    after which [callHist] returns. *)
Fixpoint callHist_loop (n : nat) (index : Z) (id : Z) (cmdLine : strptr)
    (os : os_reply) : M unit :=
  match n with
  | O =>
      s ← load_str cmdLine;
      printf (s +:+ ": event not found" +:+ nl)
  | S n' =>
      cid ← load_commandID index;
      if cid =? to_uint id then
        text ← load_command index;
        let '(cmdParsed, bg) := parseCommand text 0 in
        programCall cmdParsed (InRing index) bg os
      else callHist_loop n' (indexer index) id cmdLine os
  end.

(** [callHist]. *)
Definition callHist (id : Z) (cmdLine : strptr) (os : os_reply) : M unit :=
  st ← get_shell;
  callHist_loop (Z.to_nat (ringCount st)) (ringEnd st) id cmdLine os.

(** The body of the [while] loop of [readCommand] without the prompt for the
    next line; [bg] is the local of [readCommand], whose new value is
    returned. *)
Definition dispatch (cmdLine : string) (bg : Z) (os : os_reply) : M Z :=
  if String.eqb cmdLine "history" then
    history (Buf cmdLine);;
    mret bg
  else
    let '(cmdParsed, bg') := parseCommand cmdLine bg in
    match cmdParsed with
    | [] => mret bg'
    | temp :: _ =>
        if first_is_bang temp then
          callHist (atoi (from_second temp)) (Buf cmdLine) os;;
          mret bg'
        else
          programCall cmdParsed (Buf cmdLine) bg' os;;
          mret bg'
    end.

(** [cmdPrologue], on the characters [fgets] delivers: at least one
    character.  The end of standard input, where [fgets] delivers nothing
    and the buffer keeps the line before, is not an element of the input. *)
Definition cmdPrologue (raw : string) : M string :=
  printf "rashell> ";;
  mret (strtok_nl raw).

(** [readCommand] on the lines standard input delivers, each with the
    answers of the operating system while it is dispatched.  The run is
    followed as far as the given input goes. *)
Fixpoint readCommand_from (input : list (string * os_reply)) (bg : Z) : M unit :=
  match input with
  | [] => mret tt
  | (raw, os) :: rest =>
      cmdLine ← cmdPrologue raw;
      if String.eqb cmdLine "exit" then mret tt
      else
        bg' ← dispatch cmdLine bg os;
        readCommand_from rest bg'
  end.

Definition readCommand (input : list (string * os_reply)) : M unit :=
  readCommand_from input 0.

End Dispatcher.

(** ** Derived notions used in the statements *)

(** The slot reads that evaluating a [char*] costs, and the text found. *)
Definition ptr_reads (p : strptr) : list event :=
  match p with
  | Buf _ => []
  | InRing i => [SlotRead i]
  end.

Definition str_at (p : strptr) (st : shell) : string :=
  match p with
  | Buf s => s
  | InRing i => command (slot st i)
  end.

(** The indices a scan of [n] steps visits, as the loops of [history] and
    [callHist] do with [indexer]. *)
Fixpoint ring_indices (n : nat) (index : Z) : list Z :=
  match n with
  | O => []
  | S n' => index :: ring_indices n' (indexer index)
  end.

(** The stored entries, oldest first: what the loop of [history] shows. *)
Definition listAll (st : shell) : list history_t :=
  map (slot st) (ring_indices (Z.to_nat (ringCount st)) (ringEnd st)).

(** The first slot of the scan of [callHist] that holds identifier [id]. *)
Definition find_slot (id : Z) (st : shell) (idxs : list Z) : option Z :=
  List.find (λ i, commandID (slot st i) =? to_uint id) idxs.

Definition findByIdentifier (id : Z) (st : shell) : option Z :=
  find_slot id st (ring_indices (Z.to_nat (ringCount st)) (ringEnd st)).

(** The slots a scan reads before it stops at [i], [i] included. *)
Fixpoint scanned (id : Z) (st : shell) (idxs : list Z) : list Z :=
  match idxs with
  | [] => []
  | i :: rest =>
      if commandID (slot st i) =? to_uint id then [i]
      else i :: scanned id st rest
  end.

(** The events of the loop of [history] over the given slots. *)
Definition listing_events (st : shell) (idxs : list Z) : list event :=
  flat_map (λ i, [SlotRead i; SlotRead i; Stdout (format_entry (slot st i))]) idxs.

(** The globals after [recHistory] has recorded the text [s]. *)
Definition rec_state (s : string) (st : shell) : shell :=
  let start := indexer (ringStart st) in
  {| ringStart := start;
     ringEnd := if ringCount st <? ringSize then ringEnd st else indexer (ringEnd st);
     ringCount := if ringCount st <? ringSize then wrap_int (ringCount st + 1)
                  else ringCount st;
     cmdID := wrap_int (cmdID st + 1);
     ringBuffer := <[start := {| command := s; commandID := to_uint (cmdID st) |}]>
                     (ringBuffer st) |}.

(** The globals after a sequence of commands has been recorded. *)
Definition appends (cmds : list string) (st : shell) : shell :=
  fold_left (λ st c, shell_of (recHistory (Buf c)) st) cmds st.

(** Entries for the given texts with consecutive identifiers from [k]. *)
Fixpoint numbered (k : Z) (cmds : list string) : list history_t :=
  match cmds with
  | [] => []
  | c :: cs => {| command := c; commandID := k |} :: numbered (k + 1) cs
  end.

(** The last [k] elements of a list. *)
Definition lastn {A} (k : nat) (l : list A) : list A := drop (length l - k) l.

(** What is written to standard output, the output of a child taken at the
    place of its creation. *)
Fixpoint printed_ev (e : event) : list string :=
  match e with
  | Stdout s => [s]
  | Forked child _ =>
      (fix go (l : list event) : list string :=
         match l with
         | [] => []
         | x :: l' => printed_ev x ++ go l'
         end) child
  | _ => []
  end.

Definition printed (t : list event) : list string := flat_map printed_ev t.

(** The ring slots a trace touches, those of a child included. *)
Fixpoint slots_ev (e : event) : list Z :=
  match e with
  | SlotRead i | SlotWrite i => [i]
  | Forked child _ =>
      (fix go (l : list event) : list Z :=
         match l with
         | [] => []
         | x :: l' => slots_ev x ++ go l'
         end) child
  | _ => []
  end.

Definition slots (t : list event) : list Z := flat_map slots_ev t.

(** A trace without its ring-slot accesses: what can be observed from
    outside the process. *)
Fixpoint observable_ev (e : event) : list event :=
  match e with
  | SlotRead _ | SlotWrite _ => []
  | Forked child status =>
      [Forked ((fix go (l : list event) : list event :=
                  match l with
                  | [] => []
                  | x :: l' => observable_ev x ++ go l'
                  end) child) status]
  | _ => [e]
  end.

Definition observable (t : list event) : list event := flat_map observable_ev t.

(** How a computation ends: with the globals it leaves, or with the exit
    status of the shell. *)
Definition ending {A} (r : res A) : shell + Z :=
  match r with
  | Ret _ st => inl st
  | Exit c => inr c
  end.

(** The events of the child that [foreground] and [background] create. *)
Definition child_events (cmdParsed : list string) (p : strptr) (ok : bool)
    (st : shell) : list event :=
  Execvp cmdParsed ok ::
  (if ok then []
   else ptr_reads p ++ [Stdout (str_at p st +:+ ": command not found" +:+ nl)]).

(** The events of [foreground] ([bg = 0]) or [background]. *)
Definition launch_events (cmdParsed : list string) (p : strptr) (bg : Z)
    (os : os_reply) (st : shell) : list event :=
  (if bg =? 0 then [] else [Signal]) ++
  (if fork_ok os then
     Forked (child_events cmdParsed p (exec_ok os) st)
            (if exec_ok os then None else Some 0)
     :: (if bg =? 0 then [Waitpid] else [])
   else [ForkFailed; Stdout ("error in forking" +:+ nl)]).

(** Identifiers increase strictly along a list of entries. *)
Definition increasing_ids (L : list history_t) : Prop :=
  ∀ (i j : nat) a b, L !! i = Some a → L !! j = Some b → (i < j)%nat →
    commandID a < commandID b.

(** An index of the logical ring, and a [char*] that is safe to follow. *)
Definition in_ring (i : Z) : Prop := 0 ≤ i < ringSize.

Definition ptr_ok (p : strptr) : Prop :=
  match p with
  | Buf _ => True
  | InRing i => in_ring i
  end.

(** The ring holds exactly the entries [L], oldest first. *)
Definition ring_repr (L : list history_t) (st : shell) : Prop :=
  ringCount st = Z.of_nat (length L) ∧
  (length L ≤ 10)%nat ∧
  ((length L < 10)%nat → ringEnd st = 0 ∧ ringStart st = Z.of_nat (length L) - 1) ∧
  (length L = 10%nat → 0 ≤ ringEnd st < 10 ∧ ringStart st = (ringEnd st + 9) mod 10) ∧
  ∀ (j : nat) e, L !! j = Some e → slot st ((ringEnd st + Z.of_nat j) mod 10) = e.

(** ** The entry point and notions for the read-eval loop *)

(** [main]. *)
Definition main (parseCommand : string → Z → list string * Z)
    (input : list (string * os_reply)) : M Z :=
  readCommand parseCommand input;;
  mret 0.

(** A text the loop can hand to [recHistory]: the line [history], or a line
    other than [exit] that has a first token not starting with [!]. *)
Definition recordable (parseCommand : string → Z → list string * Z)
    (text : string) : Prop :=
  text = "history"%string ∨
  (text ≠ "exit"%string ∧
   ∃ bg tok rest bg', parseCommand text bg = (tok :: rest, bg') ∧
                      first_is_bang tok = false).

(** Strings without a newline, and strings of newlines only. *)
Fixpoint no_nl (s : string) : bool :=
  match s with
  | EmptyString => true
  | String c s' => negb (Ascii.eqb c "010") && no_nl s'
  end.

Fixpoint only_nl (s : string) : bool :=
  match s with
  | EmptyString => true
  | String c s' => Ascii.eqb c "010" && only_nl s'
  end.

Definition is_waitpid (e : event) : bool :=
  match e with Waitpid => true | _ => false end.

Definition is_signal (e : event) : bool :=
  match e with Signal => true | _ => false end.

Definition is_slot_write (e : event) : bool :=
  match e with SlotWrite _ => true | _ => false end.

(** A text that fits [char command[maxLen]] with its terminator. *)
Definition fits_command (s : string) : Prop :=
  Z.of_nat (String.length s) < maxLen.

(** ** Sample inputs *)

Definition os_ok : os_reply := {| fork_ok := true; exec_ok := true |}.
Definition os_noexec : os_reply := {| fork_ok := true; exec_ok := false |}.

Definition ten_commands : list string :=
  ["a"; "b"; "c"; "d"; "e"; "f"; "g"; "h"; "i"; "j"]%string.

Definition twelve_commands : list string :=
  ["c1"; "c2"; "c3"; "c4"; "c5"; "c6"; "c7"; "c8"; "c9"; "c10"; "c11"; "c12"]%string.

(** * Properties *)

(** ** Machine integers and the index function *)

Lemma wrap_int_small z : -2147483648 ≤ z ≤ 2147483647 → wrap_int z = z.
Proof.
  intros Hz. unfold wrap_int.
  rewrite Z.mod_small by lia. lia.
Qed.

Lemma to_uint_small z : 0 ≤ z < 4294967296 → to_uint z = z.
Proof. intros Hz. unfold to_uint. by rewrite Z.mod_small. Qed.

Lemma indexer_step i : -1 ≤ i < ringSize - 1 → indexer i = i + 1.
Proof.
  unfold ringSize, indexer. intros Hi.
  rewrite wrap_int_small by lia.
  destruct (Z.leb_spec ringSize (i + 1)); unfold ringSize in *; lia.
Qed.

Lemma indexer_wrap : indexer (ringSize - 1) = 0.
Proof. reflexivity. Qed.

Lemma indexer_mod i : 0 ≤ i < 10 → indexer i = (i + 1) mod 10.
Proof.
  intros Hi. destruct (decide (i = 9)) as [->|Hne]; [reflexivity|].
  rewrite indexer_step by (unfold ringSize; lia).
  by rewrite Z.mod_small by lia.
Qed.

Lemma indexer_range i : -1 ≤ i ≤ ringSize - 1 → 0 ≤ indexer i < ringSize.
Proof.
  unfold ringSize. intros Hi.
  destruct (decide (i = 9)) as [->|Hne]; [by compute|].
  rewrite indexer_step by (unfold ringSize; lia). lia.
Qed.

(** ** The monad *)

Lemma bind_eq {A B} (m : M A) (f : A → M B) st :
  (m ≫= f) st =
  match m st with
  | (t, Ret a st') => let '(t', r) := f a st' in (t ++ t', r)
  | (t, Exit c) => (t, Exit c)
  end.
Proof. reflexivity. Qed.

Lemma slot_set_slot_eq i e st : slot (set_slot i e st) i = e.
Proof. unfold slot, set_slot; simpl. by rewrite lookup_insert_eq. Qed.

Lemma slot_set_slot_ne i j e st : i ≠ j → slot (set_slot i e st) j = slot st j.
Proof. intros Hne. unfold slot, set_slot; simpl. by rewrite lookup_insert_ne. Qed.

(** ** [recHistory] in closed form *)

Lemma load_str_eq p st : load_str p st = (ptr_reads p, Ret (str_at p st) st).
Proof. by destruct p. Qed.

Ltac msimpl :=
  cbv [mbind M_bind mret M_ret get_shell modify emit printf exit_ spawn
       store_command store_commandID load_command load_commandID load_str
       set_ringStart set_ringEnd set_ringCount set_cmdID set_slot];
  cbn [app fst snd ringStart ringEnd ringCount cmdID ringBuffer].

Lemma recHistory_eq p st :
  recHistory p st =
  (ptr_reads p ++ [SlotWrite (indexer (ringStart st)); SlotWrite (indexer (ringStart st))],
   Ret tt (rec_state (str_at p st) st)).
Proof.
  unfold recHistory, rec_state. msimpl.
  destruct (Z.ltb_spec (ringCount st) ringSize) as [Hlt|Hge].
  - assert ((ringCount st =? ringSize) = false) as Hne by lia.
    destruct p; msimpl; rewrite Hne; msimpl; unfold slot; cbn;
      rewrite ?lookup_insert_eq; cbn; by rewrite insert_insert_eq.
  - destruct p; msimpl; unfold slot; cbn;
      rewrite ?lookup_insert_eq; cbn; by rewrite insert_insert_eq.
Qed.

(** ** The ring as a list of entries *)

Lemma ring_indices_length n i : length (ring_indices n i) = n.
Proof. revert i. induction n as [|n IH]; intros i; simpl; [done|]. by rewrite IH. Qed.

Lemma ring_indices_mod n i :
  0 ≤ i < 10 →
  ring_indices n i = map (λ j : nat, (i + Z.of_nat j) mod 10) (seq 0 n).
Proof.
  revert i. induction n as [|n IH]; intros i Hi; [done|].
  cbn [ring_indices seq map]. f_equal.
  - rewrite Z.add_0_r. by rewrite Z.mod_small.
  - rewrite IH by (rewrite indexer_mod by done; by apply Z.mod_pos_bound).
    rewrite <- seq_shift, map_map. apply map_ext. intros j.
    rewrite indexer_mod by done. rewrite Zplus_mod_idemp_l. f_equal. lia.
Qed.

Lemma ring_repr_end L st : ring_repr L st → 0 ≤ ringEnd st < 10.
Proof.
  intros (_ & Hle & Hlt & Hfull & _).
  destruct (decide (length L = 10%nat)) as [Heq|Hne].
  - by apply Hfull.
  - destruct Hlt as [-> _]; lia.
Qed.

Lemma ring_repr_start L st : ring_repr L st → -1 ≤ ringStart st ≤ 9.
Proof.
  intros (_ & Hle & Hlt & Hfull & _).
  destruct (decide (length L = 10%nat)) as [Heq|Hne].
  - destruct (Hfull Heq) as [He ->].
    pose proof (Z.mod_pos_bound (ringEnd st + 9) 10). lia.
  - destruct Hlt as [_ ->]; lia.
Qed.

Lemma ring_repr_listAll L st : ring_repr L st → listAll st = L.
Proof.
  intros Hr. pose proof (ring_repr_end _ _ Hr) as He.
  destruct Hr as (Hc & Hle & _ & _ & Hslots).
  unfold listAll. rewrite Hc, Nat2Z.id, ring_indices_mod by done.
  rewrite map_map. apply list_eq. intros j.
  rewrite list_lookup_fmap.
  destruct (L !! j) as [e|] eqn:Hj.
  - rewrite lookup_seq_lt by (by eapply lookup_lt_Some). simpl.
    f_equal. by apply Hslots.
  - rewrite lookup_seq_ge; [done|]. by apply lookup_ge_None.
Qed.

Lemma ring_repr_init : ring_repr [] init.
Proof.
  split_and!; simpl; try done; try lia.
Qed.

Lemma lastn_short {A} k (l : list A) : (length l ≤ k)%nat → lastn k l = l.
Proof. intros Hl. unfold lastn. by replace (length l - k)%nat with 0%nat by lia. Qed.

Lemma lastn_length {A} k (l : list A) : length (lastn k l) = Nat.min k (length l).
Proof. unfold lastn. rewrite length_drop. lia. Qed.

Lemma lastn_snoc_full {A} k (l : list A) x :
  length l = S k → lastn (S k) (l ++ [x]) = drop 1 l ++ [x].
Proof.
  intros Hl. unfold lastn. rewrite length_app, Hl. cbn [length].
  replace (S k + 1 - S k)%nat with 1%nat by lia.
  rewrite drop_app_le by lia. done.
Qed.

Lemma lastn_lastn_snoc {A} k (l : list A) x :
  lastn (S k) (lastn (S k) l ++ [x]) = lastn (S k) (l ++ [x]).
Proof.
  destruct (decide (length l ≤ S k)%nat) as [Hle|Hgt].
  - by rewrite (lastn_short (S k) l).
  - rewrite lastn_snoc_full by (rewrite lastn_length; lia).
    unfold lastn. rewrite drop_drop, length_app. simpl.
    rewrite drop_app_le by lia. f_equal. f_equal. lia.
Qed.

Lemma rec_state_repr L s st :
  ring_repr L st →
  ring_repr (lastn 10 (L ++ [{| command := s; commandID := to_uint (cmdID st) |}]))
            (rec_state s st).
Proof.
  intros Hr. pose proof (ring_repr_end _ _ Hr) as He.
  destruct Hr as (Hc & Hle & Hlt & Hfull & Hslots).
  set (x := {| command := s; commandID := to_uint (cmdID st) |}).
  destruct (decide (length L = 10%nat)) as [Heq|Hne].
  - destruct (Hfull Heq) as [_ Hstart].
    rewrite lastn_snoc_full by done.
    assert ((ringCount st <? ringSize) = false) as Hb by (unfold ringSize; lia).
    assert (indexer (ringStart st) = ringEnd st) as Hs.
    { rewrite Hstart, indexer_mod by (by apply Z.mod_pos_bound).
      rewrite Zplus_mod_idemp_l.
      replace (ringEnd st + 9 + 1) with (ringEnd st + 1 * 10) by lia.
      rewrite Z_mod_plus_full. by apply Z.mod_small. }
    unfold ring_repr, rec_state, slot. cbn. rewrite Hb, Hs.
    rewrite length_app, length_drop, Heq. simpl.
    split_and!; try lia.
    + intros _. rewrite indexer_mod by done. split.
      * by apply Z.mod_pos_bound.
      * rewrite Zplus_mod_idemp_l.
        replace (ringEnd st + 1 + 9) with (ringEnd st + 1 * 10) by lia.
        rewrite Z_mod_plus_full. symmetry. by apply Z.mod_small.
    + intros j e Hj. rewrite indexer_mod by done. rewrite Zplus_mod_idemp_l.
      destruct (decide (j < 9)%nat) as [Hj9|Hj9].
      * rewrite lookup_app_l in Hj by (rewrite length_drop; lia).
        rewrite lookup_drop in Hj. apply Hslots in Hj.
        rewrite lookup_insert_ne.
        -- unfold slot in Hj. rewrite <- Hj. do 3 f_equal. lia.
        -- intros Heq'. revert Heq'. Z.div_mod_to_equations. lia.
      * assert (j = 9%nat) as ->.
        { apply lookup_lt_Some in Hj. rewrite length_app, length_drop in Hj.
          simpl in Hj. lia. }
        rewrite lookup_app_r in Hj by (rewrite length_drop; lia).
        rewrite length_drop, Heq in Hj. simpl in Hj. injection Hj as <-.
        replace ((ringEnd st + 1 + Z.of_nat 9) `mod` 10) with (ringEnd st)
          by (Z.div_mod_to_equations; lia).
        by rewrite lookup_insert_eq.
  - destruct Hlt as [Hend Hstart]; [lia|].
    rewrite lastn_short by (rewrite length_app; simpl; lia).
    assert ((ringCount st <? ringSize) = true) as Hb by (unfold ringSize; lia).
    assert (indexer (ringStart st) = Z.of_nat (length L)) as Hs.
    { rewrite Hstart, indexer_step by (unfold ringSize; lia). lia. }
    unfold ring_repr, rec_state, slot. cbn. rewrite Hb, Hs, Hend.
    rewrite length_app. simpl.
    rewrite wrap_int_small by lia.
    split_and!; try lia.
    + intros Hten. split; [lia|].
      replace (Z.of_nat (length L)) with 9 by lia. done.
    + intros j e Hj. rewrite Z.add_0_l.
      assert (j < length L + 1)%nat as Hjl.
      { apply lookup_lt_Some in Hj. by rewrite length_app in Hj. }
      rewrite Z.mod_small by lia.
      destruct (decide (j < length L)%nat) as [Hjlt|Hjge].
      * rewrite lookup_app_l in Hj by done.
        apply Hslots in Hj. rewrite Hend, Z.add_0_l, Z.mod_small in Hj by lia.
        rewrite lookup_insert_ne by lia. done.
      * assert (j = length L) as -> by lia.
        rewrite lookup_app_r, Nat.sub_diag in Hj by lia.
        injection Hj as <-. by rewrite lookup_insert_eq.
Qed.

(** ** Sequences of recorded commands *)

Lemma shell_of_recHistory p st :
  shell_of (recHistory p) st = rec_state (str_at p st) st.
Proof. unfold shell_of. by rewrite recHistory_eq. Qed.

Lemma appends_snoc cmds c st :
  appends (cmds ++ [c]) st = rec_state c (appends cmds st).
Proof.
  unfold appends. rewrite fold_left_app. simpl.
  by rewrite shell_of_recHistory.
Qed.

Lemma appends_repr cmds : ∃ L, ring_repr L (appends cmds init).
Proof.
  induction cmds as [|c cmds [L IH]] using rev_ind.
  - exists []. apply ring_repr_init.
  - rewrite appends_snoc. eexists. by apply rec_state_repr.
Qed.

Lemma numbered_length k cmds : length (numbered k cmds) = length cmds.
Proof. revert k. induction cmds as [|c cs IH]; intros k; simpl; [done|]. by rewrite IH. Qed.

Lemma numbered_snoc k cmds c :
  numbered k (cmds ++ [c]) =
  numbered k cmds ++ [{| command := c; commandID := k + Z.of_nat (length cmds) |}].
Proof.
  revert k. induction cmds as [|d cs IH]; intros k; simpl.
  - by rewrite Z.add_0_r.
  - rewrite IH. do 4 f_equal. lia.
Qed.

Lemma numbered_drop n k cmds :
  drop n (numbered k cmds) = numbered (k + Z.of_nat n) (drop n cmds).
Proof.
  revert k cmds. induction n as [|n IH]; intros k cmds.
  - by rewrite Z.add_0_r.
  - destruct cmds as [|c cs]; [done|]. simpl. rewrite IH. f_equal. lia.
Qed.

Lemma numbered_lookup k cmds (j : nat) :
  numbered k cmds !! j =
  (λ c, {| command := c; commandID := k + Z.of_nat j |}) <$> cmds !! j.
Proof.
  revert k j. induction cmds as [|c cs IH]; intros k j; [done|].
  destruct j as [|j]; simpl.
  - by rewrite Z.add_0_r.
  - rewrite IH. destruct (cs !! j); simpl; [|done]. do 2 f_equal. lia.
Qed.

Lemma appends_numbered cmds :
  Z.of_nat (length cmds) < INT_MAX →
  ring_repr (lastn 10 (numbered 1 cmds)) (appends cmds init) ∧
  cmdID (appends cmds init) = 1 + Z.of_nat (length cmds).
Proof.
  unfold INT_MAX.
  induction cmds as [|c cmds IH] using rev_ind; intros Hlen.
  - split; [apply ring_repr_init | done].
  - rewrite length_app in Hlen. simpl in Hlen.
    destruct IH as [Hr Hid]; [lia|].
    rewrite appends_snoc. split.
    + apply (rec_state_repr _ c) in Hr.
      rewrite lastn_lastn_snoc, Hid, to_uint_small in Hr by lia.
      by rewrite numbered_snoc.
    + unfold rec_state. cbn. rewrite Hid, wrap_int_small, length_app by lia.
      simpl. lia.
Qed.

Lemma listAll_appends cmds :
  Z.of_nat (length cmds) < INT_MAX →
  listAll (appends cmds init) = lastn 10 (numbered 1 cmds).
Proof. intros Hlen. apply ring_repr_listAll. by apply appends_numbered. Qed.

Lemma numbered_increasing k cmds : increasing_ids (numbered k cmds).
Proof.
  intros i j a b Ha Hb Hij. rewrite numbered_lookup in Ha, Hb.
  destruct (cmds !! i); [|done]. destruct (cmds !! j); [|done].
  simpl in *. injection Ha as <-. injection Hb as <-. simpl. lia.
Qed.

Lemma lastn_increasing k L : increasing_ids L → increasing_ids (lastn k L).
Proof.
  intros HL i j a b Ha Hb Hij. unfold lastn in *.
  rewrite lookup_drop in Ha, Hb. eapply HL; [done..|lia].
Qed.

(** ** The listing loop of [history] *)

Lemma history_loop_eq n index st :
  history_loop n index st = (listing_events st (ring_indices n index), Ret tt st).
Proof.
  revert index. induction n as [|n IH]; intros index; [done|].
  cbn [history_loop ring_indices]. msimpl. by rewrite IH.
Qed.

Lemma printed_app t1 t2 : printed (t1 ++ t2) = printed t1 ++ printed t2.
Proof. unfold printed. by rewrite flat_map_app. Qed.

Lemma printed_listing st idxs :
  printed (listing_events st idxs) = map (λ i, format_entry (slot st i)) idxs.
Proof. induction idxs as [|i idxs IH]; [done|]. simpl. by rewrite <- IH. Qed.

Lemma history_eq p st :
  let st' := rec_state (str_at p st) st in
  history p st =
  (ptr_reads p ++ [SlotWrite (ringStart st'); SlotWrite (ringStart st')] ++
   listing_events st' (ring_indices (Z.to_nat (ringCount st')) (ringEnd st')),
   Ret tt st').
Proof.
  intros st'. unfold history. rewrite bind_eq, recHistory_eq.
  rewrite bind_eq. cbn [get_shell]. fold st'. rewrite history_loop_eq.
  cbn [app]. by rewrite <- app_assoc.
Qed.

Lemma printed_history p st :
  printed (trace_of (history p) st) =
  map format_entry (listAll (rec_state (str_at p st) st)).
Proof.
  unfold trace_of. rewrite history_eq. cbn [fst].
  rewrite !printed_app, printed_listing.
  unfold listAll. rewrite map_map. by destruct p.
Qed.

(** ** The process runner and [programCall] in closed form *)

Lemma foreground_eq argv p os st :
  foreground argv p os st =
  (launch_events argv p 0 os st,
   if fork_ok os then Ret tt st else Exit (-1)).
Proof.
  unfold foreground, fork_failure, launch_events, child_events, child_exec.
  destruct os as [[] []]; cbn [fork_ok exec_ok]; msimpl; try done.
  by destruct p.
Qed.

Lemma background_eq argv p bg os st :
  bg ≠ 0 →
  background argv p os st =
  (launch_events argv p bg os st,
   if fork_ok os then Ret tt st else Exit (-1)).
Proof.
  intros Hbg. apply Z.eqb_neq in Hbg.
  unfold background, fork_failure, launch_events, child_events, child_exec.
  rewrite Hbg.
  destruct os as [[] []]; cbn [fork_ok exec_ok]; msimpl; try done.
  by destruct p.
Qed.

Lemma programCall_eq argv p bg os st :
  programCall argv p bg os st =
  if String.eqb (str_at p st) "history" then
    (ptr_reads p ++ fst (history p st), snd (history p st))
  else
    (ptr_reads p ++ launch_events argv p bg os st ++
       (if fork_ok os
        then ptr_reads p ++ [SlotWrite (indexer (ringStart st));
                             SlotWrite (indexer (ringStart st))]
        else []),
     if fork_ok os then Ret tt (rec_state (str_at p st) st) else Exit (-1)).
Proof.
  unfold programCall. rewrite bind_eq, load_str_eq.
  destruct (String.eqb (str_at p st) "history").
  - by destruct (history p st) as [t r].
  - destruct (Z.eqb_spec bg 0) as [->|Hbg].
    + rewrite bind_eq, foreground_eq. destruct (fork_ok os).
      * rewrite recHistory_eq. done.
      * by rewrite app_nil_r.
    + rewrite bind_eq, (background_eq _ _ bg) by done. destruct (fork_ok os).
      * rewrite recHistory_eq. done.
      * by rewrite app_nil_r.
Qed.

(** Whatever [programCall] does, if it returns it has recorded the text
    once. *)
Lemma programCall_ending argv p bg os st :
  ending (snd (programCall argv p bg os st)) =
  if (String.eqb (str_at p st) "history" || fork_ok os)%bool
  then inl (rec_state (str_at p st) st) else inr (-1).
Proof.
  rewrite programCall_eq.
  destruct (String.eqb (str_at p st) "history"); cbn [orb snd].
  - by rewrite history_eq.
  - by destruct (fork_ok os).
Qed.

(** ** The history ring: capacity, eviction, listing *)

(** C1. After any sequence of recorded commands the stored count is at most
    the capacity [ringSize]; recording never fails; and once the count has
    reached the capacity, recording one more command drops exactly the oldest
    stored entry, which is the one with the smallest identifier, keeps all
    the others in order and puts the new entry last. *)
Theorem ring_bounded_evicts_oldest (cmds : list string) (c : string) :
  let st := appends cmds init in
  ringCount st ≤ ringSize ∧
  snd (recHistory (Buf c) st) = Ret tt (appends (cmds ++ [c]) init) ∧
  (ringCount st = ringSize →
   ∃ old rest,
     listAll st = old :: rest ∧
     listAll (appends (cmds ++ [c]) init) =
       rest ++ [{| command := c; commandID := to_uint (cmdID st) |}] ∧
     (Z.of_nat (length cmds) < INT_MAX →
      Forall (λ e, commandID old < commandID e) rest)).
Proof.
  intros st. destruct (appends_repr cmds) as [L Hr]. fold st in Hr.
  pose proof Hr as (Hc & Hle & _).
  split_and!.
  - unfold ringSize. lia.
  - by rewrite recHistory_eq, appends_snoc.
  - intros Hfull. rewrite Hc in Hfull. unfold ringSize in Hfull.
    assert (length L = 10%nat) as Hlen by lia.
    destruct L as [|old rest]; [done|].
    exists old, rest. split_and!.
    + by apply ring_repr_listAll.
    + rewrite appends_snoc. fold st.
      erewrite ring_repr_listAll by (by apply rec_state_repr).
      by rewrite lastn_snoc_full.
    + intros Hbound.
      assert (old :: rest = lastn 10 (numbered 1 cmds)) as HL.
      { rewrite <- (ring_repr_listAll _ _ Hr). by apply listAll_appends. }
      apply Forall_lookup_2. intros j e He.
      assert (increasing_ids (old :: rest)) as Hinc.
      { rewrite HL. apply lastn_increasing, numbered_increasing. }
      apply (Hinc 0%nat (S j)); [done|done|lia].
Qed.

Lemma ring_bounded_evicts_oldest_witness :
  ringCount (appends ten_commands init) = ringSize ∧
  Z.of_nat (length ten_commands) < INT_MAX ∧
  ∃ old rest,
    listAll (appends ten_commands init) = old :: rest ∧
    listAll (appends (ten_commands ++ ["k"%string]) init) =
      rest ++ [{| command := "k"; commandID := 11 |}] ∧
    Forall (λ e, commandID old < commandID e) rest.
Proof.
  split; [vm_compute; reflexivity|].
  split; [vm_compute; reflexivity|].
  destruct (ring_bounded_evicts_oldest ten_commands "k") as (_ & _ & H).
  destruct H as (old & rest & H1 & H2 & H3); [vm_compute; reflexivity|].
  exists old, rest.
  split; [exact H1|].
  split; [exact H2|].
  apply H3. vm_compute. reflexivity.
Defined.

Lemma format_entry_literal e :
  0 ≤ commandID e ≤ INT_MAX →
  format_entry e =
    "       " +:+ pretty (commandID e) +:+ " " +:+ command e +:+
      String "010"%char EmptyString.
Proof.
  unfold INT_MAX. intros He. unfold format_entry, nl.
  by rewrite wrap_int_small by lia.
Qed.

Lemma listAll_ids_in_range cmds e :
  Z.of_nat (length cmds) < INT_MAX →
  e ∈ listAll (appends cmds init) →
  1 ≤ commandID e ≤ INT_MAX.
Proof.
  intros Hlen. rewrite listAll_appends by done. unfold lastn.
  intros [j Hj]%list_elem_of_lookup.
  rewrite lookup_drop, numbered_lookup in Hj.
  destruct (cmds !! _) as [c|] eqn:Hc; [|done].
  apply lookup_lt_Some in Hc. simpl in Hj. injection Hj as <-. simpl. lia.
Qed.

Lemma map_format_entry_literal cmds :
  Z.of_nat (length cmds) < INT_MAX →
  map format_entry (listAll (appends cmds init)) =
  map (λ e, "       " +:+ pretty (commandID e) +:+ " " +:+ command e +:+
              String "010"%char EmptyString)
      (listAll (appends cmds init)).
Proof.
  intros Hlen. apply map_ext_in. intros e He%list_elem_of_In.
  apply format_entry_literal.
  pose proof (listAll_ids_in_range cmds e Hlen He). lia.
Qed.

(** C2. After [N] recorded commands, each short enough for the [command]
    member, the listing loop of [history] prints one line per entry of
    [listAll], seven blanks, the identifier in decimal, a blank, the text
    and a newline: for [N] up to the capacity these are exactly the [N]
    commands in insertion order with identifiers 1..N; for larger [N],
    exactly the last [ringSize] commands, oldest first, with identifiers
    N-ringSize+1..N. *)
Theorem listing_after_appends (cmds : list string) :
  Z.of_nat (length cmds) < INT_MAX →
  Forall fits_command cmds →
  let st := appends cmds init in
  let N := length cmds in
  history_loop (Z.to_nat (ringCount st)) (ringEnd st) st =
    (listing_events st (ring_indices (Z.to_nat (ringCount st)) (ringEnd st)), Ret tt st) ∧
  printed (trace_of (history_loop (Z.to_nat (ringCount st)) (ringEnd st)) st) =
    map (λ e, "       " +:+ pretty (commandID e) +:+ " " +:+ command e +:+
                String "010"%char EmptyString)
        (listAll st) ∧
  ((N ≤ Z.to_nat ringSize)%nat → listAll st = numbered 1 cmds) ∧
  ((N > Z.to_nat ringSize)%nat →
   listAll st =
     numbered (Z.of_nat N - ringSize + 1) (drop (N - Z.to_nat ringSize) cmds)).
Proof.
  intros Hlen _ st N. split_and!.
  - apply history_loop_eq.
  - unfold trace_of. rewrite history_loop_eq. cbn [fst].
    rewrite printed_listing. unfold st.
    rewrite <- map_format_entry_literal by done.
    unfold listAll. by rewrite map_map.
  - intros HN. unfold st. rewrite listAll_appends by done.
    apply lastn_short. rewrite numbered_length. exact HN.
  - intros HN. unfold st. rewrite listAll_appends by done.
    unfold lastn. rewrite numbered_drop, numbered_length.
    change (Z.to_nat ringSize) with 10%nat in *. fold N.
    f_equal. unfold ringSize. lia.
Qed.

Lemma listing_after_appends_witness :
  printed (trace_of (history_loop (Z.to_nat (ringCount (appends twelve_commands init)))
                       (ringEnd (appends twelve_commands init)))
             (appends twelve_commands init)) =
    ["       3 c3
"; "       4 c4
"; "       5 c5
"; "       6 c6
"; "       7 c7
"; "       8 c8
"; "       9 c9
"; "       10 c10
"; "       11 c11
"; "       12 c12
"]%string ∧
  listAll (appends twelve_commands init) =
    numbered 3 ["c3"; "c4"; "c5"; "c6"; "c7"; "c8"; "c9"; "c10"; "c11"; "c12"]%string.
Proof.
  assert (Z.of_nat (length twelve_commands) < INT_MAX) as Hlen
    by (vm_compute; reflexivity).
  assert (Forall fits_command twelve_commands) as Hfit
    by (unfold twelve_commands; repeat (apply List.Forall_cons;
          [vm_compute; reflexivity|]); apply List.Forall_nil).
  destruct (listing_after_appends twelve_commands Hlen Hfit) as (_ & Hp & _ & Hbig).
  split.
  - rewrite Hp, Hbig by (vm_compute; lia). vm_compute. reflexivity.
  - apply Hbig. vm_compute. lia.
Defined.

(** ** Looking an identifier up *)

Lemma listAll_lookup st (j : nat) e :
  listAll st !! j = Some e →
  ∃ i, ring_indices (Z.to_nat (ringCount st)) (ringEnd st) !! j = Some i ∧ slot st i = e.
Proof.
  unfold listAll. rewrite list_lookup_fmap. intros Hj.
  destruct (ring_indices _ _ !! j) as [i|]; [|done].
  exists i. split; [done|]. simpl in Hj. congruence.
Qed.

Lemma find_slot_None id st idxs :
  (∀ i, In i idxs → commandID (slot st i) ≠ to_uint id) →
  find_slot id st idxs = None.
Proof.
  intros Hno. unfold find_slot.
  destruct (List.find _ idxs) as [i|] eqn:Hf; [|done].
  apply find_some in Hf as [Hin Heq]. apply Z.eqb_eq in Heq. by apply Hno in Hin.
Qed.

Lemma find_slot_Some id st idxs i0 :
  In i0 idxs → commandID (slot st i0) = to_uint id →
  ∃ i, find_slot id st idxs = Some i ∧ In i idxs ∧ commandID (slot st i) = to_uint id.
Proof.
  intros Hin Heq. unfold find_slot.
  destruct (List.find _ idxs) as [i|] eqn:Hf.
  - exists i. split; [done|]. apply find_some in Hf as [Hi Hb].
    split; [done|]. by apply Z.eqb_eq.
  - eapply find_none in Hf; [|exact Hin]. apply Z.eqb_neq in Hf. done.
Qed.

Lemma scanned_incl id st idxs i : In i (scanned id st idxs) → In i idxs.
Proof.
  induction idxs as [|a idxs IH]; [done|]. simpl.
  destruct (commandID (slot st a) =? to_uint id); simpl; intuition.
Qed.

(** The entries stored after [cmds] have been recorded from the start. *)
Lemma stored_entry cmds (j : nat) e :
  Z.of_nat (length cmds) < INT_MAX →
  listAll (appends cmds init) !! j = Some e →
  ∃ k : nat, (k = j + (length cmds - 10))%nat ∧ cmds !! k = Some (command e) ∧
             commandID e = Z.of_nat k + 1.
Proof.
  intros Hlen. rewrite listAll_appends by done. unfold lastn.
  rewrite lookup_drop, numbered_lookup, numbered_length. intros Hj.
  exists (j + (length cmds - 10))%nat. split; [done|].
  replace (length cmds - 10 + j)%nat with (j + (length cmds - 10))%nat in Hj by lia.
  destruct (cmds !! _) as [c|]; [|done]. simpl in Hj. injection Hj as <-.
  simpl. split; [done|lia].
Qed.

Lemma stored_entry_inv cmds (k : nat) c :
  Z.of_nat (length cmds) < INT_MAX →
  cmds !! k = Some c → (length cmds ≤ k + 10)%nat →
  listAll (appends cmds init) !! (k - (length cmds - 10))%nat =
    Some {| command := c; commandID := Z.of_nat k + 1 |}.
Proof.
  intros Hlen Hk Hstored. rewrite listAll_appends by done. unfold lastn.
  rewrite lookup_drop, numbered_lookup, numbered_length.
  replace (length cmds - 10 + (k - (length cmds - 10)))%nat with k by lia.
  rewrite Hk. simpl. do 2 f_equal. lia.
Qed.

Lemma In_ring_indices_listAll st i :
  In i (ring_indices (Z.to_nat (ringCount st)) (ringEnd st)) →
  ∃ j : nat, listAll st !! j = Some (slot st i).
Proof.
  intros Hin. apply list_elem_of_In, list_elem_of_lookup in Hin as [j Hj].
  exists j. unfold listAll. by rewrite list_lookup_fmap, Hj.
Qed.

(** The scan of [callHist] fails exactly on the identifiers that were never
    given out or whose entry has been overwritten. *)
Lemma find_missing cmds id :
  Z.of_nat (length cmds) < INT_MAX →
  - INT_MAX - 1 ≤ id ≤ INT_MAX →
  id < 1 ∨ Z.of_nat (length cmds) < id ∨ id ≤ Z.of_nat (length cmds) - ringSize →
  findByIdentifier id (appends cmds init) = None.
Proof.
  unfold INT_MAX, ringSize. intros Hlen Hid Hout.
  apply find_slot_None. intros i Hin Heq.
  apply In_ring_indices_listAll in Hin as [j Hj].
  pose proof (lookup_lt_Some _ _ _ Hj) as Hjlen.
  rewrite listAll_appends, lastn_length, numbered_length in Hjlen by done.
  apply stored_entry in Hj as (k & Hk & Hcmd & Hcid); [|done].
  apply lookup_lt_Some in Hcmd.
  rewrite Hcid in Heq. unfold to_uint in Heq.
  destruct (decide (0 ≤ id)) as [Hpos|Hneg].
  - rewrite Z.mod_small in Heq by lia. lia.
  - replace id with (id + 4294967296 + (-1) * 4294967296) in Heq by lia.
    rewrite Z_mod_plus_full, Z.mod_small in Heq by lia. lia.
Qed.

Lemma find_stored cmds (k : nat) c :
  Z.of_nat (length cmds) < INT_MAX →
  cmds !! k = Some c → (length cmds ≤ k + 10)%nat →
  let st := appends cmds init in
  ∃ i, findByIdentifier (Z.of_nat k + 1) st = Some i ∧
       0 ≤ i < ringSize ∧
       slot st i = {| command := c; commandID := Z.of_nat k + 1 |}.
Proof.
  intros Hlen Hk Hstored st.
  pose proof (lookup_lt_Some _ _ _ Hk) as Hklen.
  pose proof Hlen as Hlen'. unfold INT_MAX in Hlen'.
  pose proof (stored_entry_inv _ _ _ Hlen Hk Hstored) as Hj. fold st in Hj.
  destruct (listAll_lookup _ _ _ Hj) as (i0 & Hi0 & Hs0).
  assert (to_uint (Z.of_nat k + 1) = Z.of_nat k + 1) as Hu
    by (apply to_uint_small; lia).
  destruct (find_slot_Some (Z.of_nat k + 1) st
              (ring_indices (Z.to_nat (ringCount st)) (ringEnd st)) i0)
    as (i & Hf & Hin & Hid).
  { apply list_elem_of_In, list_elem_of_lookup. eauto. }
  { by rewrite Hs0, Hu. }
  exists i. split; [exact Hf|].
  destruct (appends_numbered cmds Hlen) as [Hr _]. fold st in Hr.
  pose proof (ring_repr_end _ _ Hr) as He.
  split.
  - rewrite ring_indices_mod in Hin by done.
    apply in_map_iff in Hin as (j & <- & _).
    unfold ringSize. by apply Z.mod_pos_bound.
  - apply In_ring_indices_listAll in Hin as [j Hj'].
    pose proof Hj' as Hj''.
    apply stored_entry in Hj' as (k' & Hk' & Hcmd & Hcid); [|done].
    rewrite Hid, Hu in Hcid. assert (k' = k) as -> by lia.
    rewrite Hk in Hcmd. injection Hcmd as Hcmd.
    destruct (slot st i) as [c' n']. simpl in *. congruence.
Qed.

(** ** Projections of traces *)

Lemma printed_reads l : printed (map SlotRead l) = [].
Proof. by induction l. Qed.

Lemma slots_app t1 t2 : slots (t1 ++ t2) = slots t1 ++ slots t2.
Proof. unfold slots. by rewrite flat_map_app. Qed.

Lemma slots_reads l : slots (map SlotRead l) = l.
Proof. induction l as [|i l IH]; [done|]. simpl. by rewrite IH. Qed.

Lemma observable_app t1 t2 : observable (t1 ++ t2) = observable t1 ++ observable t2.
Proof. unfold observable. by rewrite flat_map_app. Qed.

Lemma observable_reads l : observable (map SlotRead l) = [].
Proof. by induction l. Qed.

Lemma observable_ptr_reads p : observable (ptr_reads p) = [].
Proof. by destruct p. Qed.

(** ** The dispatcher *)

Section DispatcherFacts.

Variable parseCommand : string → Z → list string * Z.

Lemma callHist_loop_eq n index id p os st :
  callHist_loop parseCommand n index id p os st =
  match find_slot id st (ring_indices n index) with
  | Some i =>
      let '(argv, bg) := parseCommand (command (slot st i)) 0 in
      (map SlotRead (scanned id st (ring_indices n index)) ++
         SlotRead i :: fst (programCall argv (InRing i) bg os st),
       snd (programCall argv (InRing i) bg os st))
  | None =>
      (map SlotRead (ring_indices n index) ++ ptr_reads p ++
         [Stdout (str_at p st +:+ ": event not found" +:+ nl)],
       Ret tt st)
  end.
Proof.
  revert index. induction n as [|n IH]; intros index.
  - cbn [callHist_loop ring_indices find_slot List.find map app].
    rewrite bind_eq, load_str_eq. msimpl. done.
  - cbn [callHist_loop ring_indices]. unfold find_slot. cbn [List.find scanned].
    msimpl.
    destruct (commandID (slot st index) =? to_uint id) eqn:Hid.
    + destruct (parseCommand (command (slot st index)) 0) as [argv bg].
      by destruct (programCall argv (InRing index) bg os st) as [t r].
    + rewrite IH. unfold find_slot.
      destruct (List.find _ _) as [i|]; [|done].
      destruct (parseCommand (command (slot st i)) 0) as [argv bg]. done.
Qed.

Lemma callHist_eq id p os st :
  callHist parseCommand id p os st =
  let idxs := ring_indices (Z.to_nat (ringCount st)) (ringEnd st) in
  match findByIdentifier id st with
  | Some i =>
      let '(argv, bg) := parseCommand (command (slot st i)) 0 in
      (map SlotRead (scanned id st idxs) ++
         SlotRead i :: fst (programCall argv (InRing i) bg os st),
       snd (programCall argv (InRing i) bg os st))
  | None =>
      (map SlotRead idxs ++ ptr_reads p ++
         [Stdout (str_at p st +:+ ": event not found" +:+ nl)],
       Ret tt st)
  end.
Proof.
  unfold callHist. rewrite bind_eq. cbn [get_shell].
  rewrite callHist_loop_eq. unfold findByIdentifier.
  destruct (find_slot _ _ _) as [i|]; [|done].
  by destruct (parseCommand (command (slot st i)) 0) as [argv bg].
Qed.


(** The four branches of the loop body. *)

Lemma dispatch_history bg os st :
  dispatch parseCommand "history" bg os st =
  (fst (history (Buf "history") st), Ret bg (rec_state "history" st)).
Proof.
  unfold dispatch. cbn [String.eqb Ascii.eqb]. simpl.
  rewrite bind_eq, history_eq. msimpl. by rewrite app_nil_r.
Qed.

Lemma dispatch_blank line bg bg' os st :
  String.eqb line "history" = false →
  parseCommand line bg = ([], bg') →
  dispatch parseCommand line bg os st = ([], Ret bg' st).
Proof. intros Hh Hp. unfold dispatch. by rewrite Hh, Hp. Qed.

Lemma dispatch_bang line bg bg' tok rest os st :
  String.eqb line "history" = false →
  parseCommand line bg = (tok :: rest, bg') →
  first_is_bang tok = true →
  dispatch parseCommand line bg os st =
  (fst (callHist parseCommand (atoi (from_second tok)) (Buf line) os st),
   match snd (callHist parseCommand (atoi (from_second tok)) (Buf line) os st) with
   | Ret _ st' => Ret bg' st'
   | Exit c => Exit c
   end).
Proof.
  intros Hh Hp Hb. unfold dispatch. rewrite Hh, Hp, Hb, bind_eq.
  destruct (callHist _ _ _ _ _) as [t [[] st'|c]]; [|done].
  msimpl. by rewrite app_nil_r.
Qed.

Lemma dispatch_program line bg bg' tok rest os st :
  String.eqb line "history" = false →
  parseCommand line bg = (tok :: rest, bg') →
  first_is_bang tok = false →
  dispatch parseCommand line bg os st =
  (fst (programCall (tok :: rest) (Buf line) bg' os st),
   match snd (programCall (tok :: rest) (Buf line) bg' os st) with
   | Ret _ st' => Ret bg' st'
   | Exit c => Exit c
   end).
Proof.
  intros Hh Hp Hb. unfold dispatch. rewrite Hh, Hp, Hb, bind_eq.
  destruct (programCall _ _ _ _ _) as [t [[] st'|c]]; [|done].
  msimpl. by rewrite app_nil_r.
Qed.

Lemma ending_rebind {A B} (r : res A) (b : B) :
  ending (match r with Ret _ st' => Ret b st' | Exit c => Exit c end) = ending r.
Proof. by destruct r. Qed.

(** A dispatch that returns has left the ring alone or recorded one text. *)
Lemma dispatch_ending line bg os st st' :
  ending (snd (dispatch parseCommand line bg os st)) = inl st' →
  st' = st ∨ ∃ text, st' = rec_state text st.
Proof.
  destruct (String.eqb line "history") eqn:Hh.
  - apply String.eqb_eq in Hh as ->. rewrite dispatch_history. cbn.
    intros [= <-]. right. by eexists.
  - destruct (parseCommand line bg) as [[|tok rest] bg'] eqn:Hp.
    + rewrite (dispatch_blank _ _ bg') by done. cbn. intros [= <-]. by left.
    + destruct (first_is_bang tok) eqn:Hb.
      * rewrite (dispatch_bang _ _ bg' tok rest) by done. cbn [snd].
        rewrite ending_rebind, callHist_eq. cbv zeta.
        destruct (findByIdentifier _ st) as [i|].
        -- destruct (parseCommand (command (slot st i)) 0) as [argv b].
           cbn [snd]. rewrite programCall_ending.
           destruct (_ || _)%bool; [|done]. intros [= <-]. right. by eexists.
        -- cbn. intros [= <-]. by left.
      * rewrite (dispatch_program _ _ bg' tok rest) by done. cbn [snd].
        rewrite ending_rebind, programCall_ending.
        destruct (_ || _)%bool; [|done]. intros [= <-]. right. by eexists.
Qed.

Lemma lastn_snoc {A} k (l : list A) x : lastn (S k) (l ++ [x]) = lastn k l ++ [x].
Proof.
  unfold lastn. rewrite length_app. cbn [length].
  replace (length l + 1 - S k)%nat with (length l - k)%nat by lia.
  by rewrite drop_app_le by lia.
Qed.

Lemma listAll_appends_snoc cmds c :
  Z.of_nat (length cmds) + 1 < INT_MAX →
  listAll (appends (cmds ++ [c]) init) =
  lastn 9 (numbered 1 cmds) ++
    [{| command := c; commandID := Z.of_nat (length cmds) + 1 |}].
Proof.
  intros Hlen. rewrite listAll_appends by (rewrite length_app; simpl; lia).
  rewrite numbered_snoc, lastn_snoc. do 3 f_equal. lia.
Qed.

(** C7. Identifiers start at 1, every recorded command gets the identifier
    after the one given last, stored identifiers increase strictly from the
    oldest to the newest entry, and a dispatched line (a replay and
    [history] included) changes the ring only by recording one command in
    this way. *)
Theorem identifiers_monotonic (cmds : list string) (c line : string) (bg : Z)
    (os : os_reply) :
  Z.of_nat (length cmds) + 1 < INT_MAX →
  let st := appends cmds init in
  listAll (appends [c] init) = [{| command := c; commandID := 1 |}] ∧
  cmdID st = Z.of_nat (length cmds) + 1 ∧
  last (listAll (appends (cmds ++ [c]) init)) =
    Some {| command := c; commandID := cmdID st |} ∧
  cmdID (appends (cmds ++ [c]) init) = cmdID st + 1 ∧
  increasing_ids (listAll (appends (cmds ++ [c]) init)) ∧
  (∀ st', ending (snd (dispatch parseCommand line bg os st)) = inl st' →
          st' = st ∨ ∃ text, st' = appends (cmds ++ [text]) init).
Proof.
  intros Hlen st.
  assert (Z.of_nat (length cmds) < INT_MAX) as Hlen0 by lia.
  assert (Z.of_nat (length (cmds ++ [c])) < INT_MAX) as Hlen1
    by (rewrite length_app; simpl; lia).
  destruct (appends_numbered cmds Hlen0) as [_ Hid]. fold st in Hid.
  split_and!.
  - rewrite listAll_appends by done. reflexivity.
  - lia.
  - rewrite listAll_appends_snoc, last_snoc by done. do 2 f_equal. lia.
  - destruct (appends_numbered _ Hlen1) as [_ ->].
    rewrite length_app. simpl. lia.
  - rewrite listAll_appends by done.
    apply lastn_increasing, numbered_increasing.
  - intros st' Hend. apply dispatch_ending in Hend as [->|[text ->]].
    + by left.
    + right. exists text. by rewrite appends_snoc.
Qed.

(** C4. The line [history] is recorded first and the listing is printed
    from the ring that already holds it: one line per entry, seven blanks,
    the identifier in decimal, a blank, the text and a newline, so that the
    last printed line is the entry of the invocation itself; a second
    [history] right after ends its listing with both entries, under two
    consecutive identifiers. *)
Theorem history_lists_itself (cmds : list string) (bg : Z) (os : os_reply) :
  Z.of_nat (length cmds) + 2 < INT_MAX →
  Forall fits_command cmds →
  let n := Z.of_nat (length cmds) in
  let st0 := appends cmds init in
  let st1 := appends (cmds ++ ["history"%string]) init in
  let st2 := appends (cmds ++ ["history"; "history"]%string) init in
  let line := λ e, ("       " +:+ pretty (commandID e) +:+ " " +:+ command e +:+
                      String "010"%char EmptyString)%string in
  dispatch parseCommand "history" bg os st0 =
    ([SlotWrite (ringStart st1); SlotWrite (ringStart st1)] ++
       listing_events st1 (ring_indices (Z.to_nat (ringCount st1)) (ringEnd st1)),
     Ret bg st1) ∧
  printed (trace_of (dispatch parseCommand "history" bg os) st0) =
    map line (listAll st1) ∧
  last (listAll st1) = Some {| command := "history"; commandID := n + 1 |} ∧
  last (printed (trace_of (dispatch parseCommand "history" bg os) st0)) =
    Some ("       " +:+ pretty (n + 1) +:+ " history" +:+
            String "010"%char EmptyString) ∧
  snd (dispatch parseCommand "history" bg os st1) = Ret bg st2 ∧
  printed (trace_of (dispatch parseCommand "history" bg os) st1) =
    map line (listAll st2) ∧
  (∃ older,
     listAll st2 = older ++ [{| command := "history"; commandID := n + 1 |};
                             {| command := "history"; commandID := n + 2 |}]) ∧
  (∃ shown,
     printed (trace_of (dispatch parseCommand "history" bg os) st1) =
       shown ++ ["       " +:+ pretty (n + 1) +:+ " history" +:+
                   String "010"%char EmptyString;
                 "       " +:+ pretty (n + 2) +:+ " history" +:+
                   String "010"%char EmptyString]) ∧
  pretty (n + 1) ≠ pretty (n + 2).
Proof.
  intros Hlen _ n st0 st1 st2 line.
  assert (st1 = rec_state "history" st0) as E1 by apply appends_snoc.
  assert (st2 = rec_state "history" st1) as E2.
  { unfold st2, st1.
    change (cmds ++ ["history"; "history"]%string)
      with (cmds ++ ["history"%string] ++ ["history"%string]).
    rewrite app_assoc. apply appends_snoc. }
  assert (Z.of_nat (length (cmds ++ ["history"%string])) < INT_MAX) as Hlen1
    by (rewrite length_app; simpl; unfold n in *; lia).
  assert (Z.of_nat (length (cmds ++ ["history"; "history"]%string)) < INT_MAX) as Hlen2
    by (rewrite length_app; simpl; unfold n in *; lia).
  assert (printed (trace_of (dispatch parseCommand "history" bg os) st0) =
            map line (listAll st1)) as P1.
  { unfold trace_of. rewrite dispatch_history. cbn [fst].
    pose proof (printed_history (Buf "history") st0) as H.
    unfold trace_of in H. rewrite H. cbn [str_at]. rewrite <- E1.
    unfold st1. by apply map_format_entry_literal. }
  assert (printed (trace_of (dispatch parseCommand "history" bg os) st1) =
            map line (listAll st2)) as P2.
  { unfold trace_of. rewrite dispatch_history. cbn [fst].
    pose proof (printed_history (Buf "history") st1) as H.
    unfold trace_of in H. rewrite H. cbn [str_at]. rewrite <- E2.
    unfold st2. by apply map_format_entry_literal. }
  assert (listAll st1 =
            lastn 9 (numbered 1 cmds) ++
              [{| command := "history"; commandID := n + 1 |}]) as L1.
  { unfold st1. rewrite listAll_appends_snoc by (unfold n in *; lia). done. }
  assert (listAll st2 =
            lastn 8 (numbered 1 cmds) ++
              [{| command := "history"; commandID := n + 1 |};
               {| command := "history"; commandID := n + 2 |}]) as L2.
  { unfold st2.
    change (cmds ++ ["history"; "history"]%string)
      with (cmds ++ ["history"%string] ++ ["history"%string]).
    rewrite app_assoc, listAll_appends_snoc by (rewrite length_app; simpl; lia).
    rewrite numbered_snoc, lastn_snoc, <- app_assoc, length_app. simpl.
    replace (1 + Z.of_nat (length cmds)) with (n + 1) by lia.
    by replace (Z.of_nat (length cmds + 1) + 1) with (n + 2) by lia. }
  split_and!.
  - rewrite dispatch_history, history_eq. cbn [fst str_at ptr_reads app].
    by rewrite <- E1.
  - exact P1.
  - by rewrite L1, last_snoc.
  - rewrite P1, L1, map_app. cbn [map]. by rewrite last_snoc.
  - rewrite dispatch_history. cbn [snd]. by rewrite E2.
  - exact P2.
  - eexists. exact L2.
  - rewrite P2, L2, map_app. cbn [map]. eexists. reflexivity.
  - intros Heq. apply (inj pretty) in Heq. lia.
Qed.

(** C5, as the code has it. The identifier is what [atoi] reads from the
    token, an [int].  In the ring reached by recording [cmds] (texts that
    fit the [command] member), an [int] identifier that was never given out
    or whose entry has been overwritten is not found: dispatching the line
    prints [<line>: event not found] and leaves the ring as it was.  An
    identifier still stored is found, in exactly one place, with the text
    that was recorded under it, and the line is answered by [programCall]
    on that slot, which records the text again. *)
Theorem recall_lookup (cmds : list string) (id : Z) (line : string) (bg bg' : Z)
    (tok : string) (rest : list string) (os : os_reply) :
  Z.of_nat (length cmds) < INT_MAX →
  Forall fits_command cmds →
  - INT_MAX - 1 ≤ id ≤ INT_MAX →
  String.eqb line "history" = false →
  parseCommand line bg = (tok :: rest, bg') →
  first_is_bang tok = true →
  atoi (from_second tok) = id →
  let st := appends cmds init in
  let N := Z.of_nat (length cmds) in
  (id < 1 ∨ N < id ∨ id ≤ N - ringSize →
   findByIdentifier id st = None ∧
   printed (trace_of (dispatch parseCommand line bg os) st) =
     [line +:+ ": event not found" +:+ String "010"%char EmptyString] ∧
   snd (dispatch parseCommand line bg os st) = Ret bg' st) ∧
  (1 ≤ id ∧ N - ringSize < id ≤ N →
   ∃ i text argv b,
     cmds !! Z.to_nat (id - 1) = Some text ∧
     findByIdentifier id st = Some i ∧
     slot st i = {| command := text; commandID := id |} ∧
     (∀ (j : nat) e, listAll st !! j = Some e → commandID e = id →
        e = {| command := text; commandID := id |} ∧
        j = (Z.to_nat (id - 1) - (length cmds - 10))%nat) ∧
     parseCommand text 0 = (argv, b) ∧
     trace_of (dispatch parseCommand line bg os) st =
       map SlotRead (scanned id st (ring_indices (Z.to_nat (ringCount st)) (ringEnd st))) ++
       SlotRead i :: trace_of (programCall argv (InRing i) b os) st ∧
     ending (snd (dispatch parseCommand line bg os st)) =
       if (String.eqb text "history" || fork_ok os)%bool
       then inl (appends (cmds ++ [text]) init) else inr (-1)).
Proof.
  intros Hlen _ Hid Hh Hp Hb Hatoi st N. split.
  - intros Hout.
    pose proof (find_missing cmds id Hlen Hid Hout) as Hnone. fold st in Hnone.
    split; [exact Hnone|].
    unfold trace_of. rewrite (dispatch_bang _ _ bg' tok rest) by done.
    rewrite Hatoi, callHist_eq, Hnone. cbn [fst snd ptr_reads str_at app].
    split; [|done].
    by rewrite printed_app, printed_reads.
  - unfold ringSize. intros [Hid1 Hid2].
    assert (∃ text, cmds !! Z.to_nat (id - 1) = Some text) as [text Htext].
    { apply lookup_lt_is_Some. lia. }
    destruct (find_stored cmds (Z.to_nat (id - 1)) text Hlen Htext) as (i & Hf & _ & Hs);
      [lia|].
    replace (Z.of_nat (Z.to_nat (id - 1)) + 1) with id in * by lia.
    fold st in Hf, Hs.
    destruct (parseCommand text 0) as [argv b] eqn:HpT.
    exists i, text, argv, b. split_and!; [done..| | | |].
    + intros j e Hj He.
      apply stored_entry in Hj as (k & Hk & Hcmd & Hcid); [|done].
      assert (k = Z.to_nat (id - 1)) as Hk' by lia.
      split; [|lia].
      rewrite Hk', Htext in Hcmd. injection Hcmd as Hcmd.
      destruct e as [c' n']. simpl in *. congruence.
    + done.
    + unfold trace_of. rewrite (dispatch_bang _ _ bg' tok rest) by done.
      rewrite Hatoi, callHist_eq, Hf. cbv zeta. rewrite Hs. cbn [command].
      by rewrite HpT.
    + rewrite (dispatch_bang _ _ bg' tok rest) by done. cbn [snd].
      rewrite ending_rebind, Hatoi, callHist_eq, Hf. cbv zeta.
      rewrite Hs. cbn [command]. rewrite HpT. cbn [snd].
      rewrite programCall_ending. cbn [str_at]. rewrite Hs. cbn [command].
      by rewrite appends_snoc.
Qed.

(** C6, as the code has it. A line without a token is passed over in
    silence: no event at all, the ring unchanged.  A line whose first token
    starts with [!] is always looked up, under the identifier [atoi] reads
    from the rest of the token; when that is 0 (no leading digits) the
    lookup fails, [<line>: event not found] is printed and the ring is
    unchanged. *)
Theorem blank_silent_bang_looked_up (cmds : list string) (line : string)
    (bg bg' : Z) (argv : list string) (os : os_reply) :
  String.eqb line "history" = false →
  parseCommand line bg = (argv, bg') →
  Z.of_nat (length cmds) < INT_MAX →
  let st := appends cmds init in
  (argv = [] → dispatch parseCommand line bg os st = ([], Ret bg' st)) ∧
  (∀ tok rest, argv = tok :: rest → first_is_bang tok = true →
     dispatch parseCommand line bg os st =
       (fst (callHist parseCommand (atoi (from_second tok)) (Buf line) os st),
        match snd (callHist parseCommand (atoi (from_second tok)) (Buf line) os st) with
        | Ret _ st' => Ret bg' st'
        | Exit c => Exit c
        end) ∧
     (atoi (from_second tok) = 0 →
      printed (trace_of (dispatch parseCommand line bg os) st) =
        [line +:+ ": event not found" +:+ nl] ∧
      snd (dispatch parseCommand line bg os st) = Ret bg' st)).
Proof.
  intros Hh Hp Hlen st. split.
  - intros ->. by apply dispatch_blank.
  - intros tok rest -> Hb. split.
    + by apply (dispatch_bang _ _ bg' tok rest).
    + intros H0.
      assert (findByIdentifier 0 st = None) as Hnone.
      { apply find_missing; [done|unfold INT_MAX; lia|lia]. }
      unfold trace_of. rewrite (dispatch_bang _ _ bg' tok rest) by done.
      rewrite H0, callHist_eq, Hnone. cbn [fst snd ptr_reads str_at app].
      split; [|done].
      by rewrite printed_app, printed_reads.
Qed.

(** C8. A foreground command whose program cannot be run, given after
    [cmds] have been recorded: the child prints [<line>: command not found]
    and exits with status 0, the shell waits for it, then records the line,
    which is the newest entry of the ring afterwards under the next
    identifier, and goes on with the next line.  The same holds for every
    foreground call of [programCall], a replayed text included. *)
Theorem exec_failure_reported_and_recorded (cmds : list string) (line : string)
    (bg : Z) (tok : string) (rest : list string) (os : os_reply)
    (raw : string) (more : list (string * os_reply)) :
  Z.of_nat (length cmds) + 1 < INT_MAX →
  fits_command line →
  String.eqb line "history" = false →
  parseCommand line bg = (tok :: rest, 0) →
  first_is_bang tok = false →
  fork_ok os = true →
  exec_ok os = false →
  strtok_nl raw = line →
  String.eqb line "exit" = false →
  let st := appends cmds init in
  let st' := appends (cmds ++ [line]) init in
  let attempt :=
    [Forked [Execvp (tok :: rest) false;
             Stdout (line +:+ ": command not found" +:+ String "010"%char EmptyString)]
            (Some 0);
     Waitpid;
     SlotWrite (indexer (ringStart st)); SlotWrite (indexer (ringStart st))] in
  dispatch parseCommand line bg os st = (attempt, Ret 0 st') ∧
  last (listAll st') =
    Some {| command := line; commandID := Z.of_nat (length cmds) + 1 |} ∧
  length (listAll st') = Nat.min (S (length cmds)) 10 ∧
  cmdID st' = cmdID st + 1 ∧
  (∀ argv p, String.eqb (str_at p st) "history" = false →
     programCall argv p 0 os st =
       (ptr_reads p ++
          [Forked (Execvp argv false :: ptr_reads p ++
                     [Stdout (str_at p st +:+ ": command not found" +:+
                                String "010"%char EmptyString)])
                  (Some 0);
           Waitpid] ++
          ptr_reads p ++
          [SlotWrite (indexer (ringStart st)); SlotWrite (indexer (ringStart st))],
        Ret tt (appends (cmds ++ [str_at p st]) init)) ∧
     last (listAll (appends (cmds ++ [str_at p st]) init)) =
       Some {| command := str_at p st; commandID := Z.of_nat (length cmds) + 1 |}) ∧
  readCommand_from parseCommand ((raw, os) :: more) bg st =
    (Stdout "rashell> " :: attempt ++
       fst (readCommand_from parseCommand more 0 st'),
     snd (readCommand_from parseCommand more 0 st')).
Proof.
  intros Hlen _ Hh Hp Hb Hfork Hexec Hraw Hexit st st' attempt.
  assert (st' = rec_state line st) as E by apply appends_snoc.
  assert (dispatch parseCommand line bg os st = (attempt, Ret 0 st')) as Hd.
  { rewrite (dispatch_program _ _ 0 tok rest) by done.
    rewrite programCall_eq, E. cbn [str_at ptr_reads app].
    rewrite Hh. unfold launch_events, child_events.
    rewrite Hfork, Hexec. done. }
  assert (Z.of_nat (length cmds) < INT_MAX) as Hlen0 by lia.
  assert (Z.of_nat (length (cmds ++ [line])) < INT_MAX) as Hlen1
    by (rewrite length_app; simpl; lia).
  split_and!.
  - exact Hd.
  - unfold st'. by rewrite listAll_appends_snoc, last_snoc.
  - unfold st'. rewrite listAll_appends, lastn_length, numbered_length by done.
    rewrite length_app. cbn [length]. lia.
  - destruct (appends_numbered _ Hlen0) as [_ H0].
    destruct (appends_numbered _ Hlen1) as [_ H1].
    unfold st', st. rewrite H0, H1, length_app. simpl. lia.
  - intros argv p Hp'. split.
    + rewrite programCall_eq, appends_snoc, Hp'. fold st.
      unfold launch_events, child_events. by rewrite Hfork, Hexec.
    + by rewrite listAll_appends_snoc, last_snoc.
  - cbn [readCommand_from]. unfold cmdPrologue. msimpl.
    rewrite Hraw, Hexit, Hd.
    by destruct (readCommand_from parseCommand more 0 _) as [t r].
Qed.



(** ** Ring accesses stay inside the logical ring *)

Ltac forall_cons :=
  repeat (apply List.Forall_cons; [assumption|]); try apply List.Forall_nil.

Lemma ring_indices_in_ring n index :
  in_ring index → Forall in_ring (ring_indices n index).
Proof.
  revert index. induction n as [|n IH]; intros index Hi; [by constructor|].
  cbn [ring_indices]. constructor; [done|].
  apply IH. apply indexer_range. unfold in_ring, ringSize in *. lia.
Qed.

Lemma slots_listing st idxs :
  Forall in_ring idxs → Forall in_ring (slots (listing_events st idxs)).
Proof.
  induction 1 as [|i idxs Hi _ IH]; [by constructor|].
  cbn. forall_cons. exact IH.
Qed.

Lemma slots_ptr_reads p : ptr_ok p → Forall in_ring (slots (ptr_reads p)).
Proof. destruct p; cbn; intros; forall_cons. Qed.

Lemma slots_recHistory L p st :
  ring_repr L st → ptr_ok p → Forall in_ring (slots (fst (recHistory p st))).
Proof.
  intros Hr Hp. rewrite recHistory_eq. cbn [fst]. rewrite slots_app.
  apply Forall_app. split; [by apply slots_ptr_reads|].
  pose proof (ring_repr_start _ _ Hr) as Hs.
  assert (in_ring (indexer (ringStart st))) as Hi
    by (apply indexer_range; unfold ringSize; lia).
  cbn. forall_cons.
Qed.

Lemma slots_history L p st :
  ring_repr L st → ptr_ok p → Forall in_ring (slots (fst (history p st))).
Proof.
  intros Hr Hp. rewrite history_eq. cbn [fst]. rewrite !slots_app.
  pose proof (ring_repr_start _ _ Hr) as Hs.
  assert (in_ring (indexer (ringStart st))) as Hi
    by (apply indexer_range; unfold ringSize; lia).
  pose proof (ring_repr_end _ _ (rec_state_repr _ (str_at p st) _ Hr)) as He.
  rewrite !Forall_app. split_and!.
  - by apply slots_ptr_reads.
  - cbn. forall_cons.
  - apply slots_listing, ring_indices_in_ring. exact He.
Qed.

Lemma slots_launch argv p bg os st :
  ptr_ok p → Forall in_ring (slots (launch_events argv p bg os st)).
Proof.
  intros Hp. unfold launch_events, child_events.
  destruct (bg =? 0), os as [[] []], p; cbn in *; forall_cons.
Qed.

Lemma slots_programCall L argv p bg os st :
  ring_repr L st → ptr_ok p →
  Forall in_ring (slots (fst (programCall argv p bg os st))).
Proof.
  intros Hr Hp. rewrite programCall_eq.
  destruct (String.eqb (str_at p st) "history"); cbn [fst]; rewrite !slots_app.
  - rewrite Forall_app. split; [by apply slots_ptr_reads|by eapply slots_history].
  - pose proof (slots_recHistory L p st Hr Hp) as Hrec.
    rewrite recHistory_eq in Hrec. cbn [fst] in Hrec.
    rewrite !Forall_app. split_and!.
    + by apply slots_ptr_reads.
    + by apply slots_launch.
    + destruct (fork_ok os); [done|constructor].
Qed.

Lemma slots_callHist L id p os st :
  ring_repr L st → ptr_ok p →
  Forall in_ring (slots (fst (callHist parseCommand id p os st))).
Proof.
  intros Hr Hp. rewrite callHist_eq. cbv zeta.
  pose proof (ring_indices_in_ring (Z.to_nat (ringCount st)) (ringEnd st)
                (ring_repr_end _ _ Hr)) as Hidx.
  destruct (findByIdentifier id st) as [i|] eqn:Hf.
  - assert (in_ring i) as Hi.
    { apply find_some in Hf as [Hin _].
      rewrite Forall_forall in Hidx. apply Hidx. by apply list_elem_of_In. }
    destruct (parseCommand (command (slot st i)) 0) as [argv bg]. cbn [fst].
    rewrite slots_app, slots_reads, Forall_app. split.
    + apply Forall_forall. intros j Hj. apply list_elem_of_In, scanned_incl in Hj.
      rewrite Forall_forall in Hidx. apply Hidx. by apply list_elem_of_In.
    + change (SlotRead i :: ?t) with ([SlotRead i] ++ t).
      rewrite slots_app, Forall_app. split; [cbn; forall_cons|].
      by apply (slots_programCall L).
  - cbn [fst]. rewrite !slots_app, slots_reads, !Forall_app. split_and!.
    + done.
    + by apply slots_ptr_reads.
    + constructor.
Qed.

(** C10. [indexer] takes every index from -1 to [ringSize - 1] into the
    ring, and in every state reached by recording commands [recHistory],
    [history] and [callHist] (with what it calls) read and write ring slots
    inside the ring only, in the shell and in a child it creates. *)
Theorem ring_accesses_in_range (cmds : list string) (p : strptr) (id : Z)
    (os : os_reply) :
  (∀ i, -1 ≤ i ≤ ringSize - 1 → in_ring (indexer i)) ∧
  let st := appends cmds init in
  -1 ≤ ringStart st ≤ ringSize - 1 ∧
  in_ring (ringEnd st) ∧
  (ptr_ok p →
   Forall in_ring (slots (trace_of (recHistory p) st)) ∧
   Forall in_ring (slots (trace_of (history p) st)) ∧
   Forall in_ring (slots (trace_of (callHist parseCommand id p os) st))).
Proof.
  split; [apply indexer_range|].
  intros st. destruct (appends_repr cmds) as [L Hr]. fold st in Hr.
  split; [|split].
  - pose proof (ring_repr_start _ _ Hr). unfold ringSize. lia.
  - apply (ring_repr_end _ _ Hr).
  - intros Hp. unfold trace_of. split_and!.
    + by apply (slots_recHistory L).
    + by apply (slots_history L).
    + by apply (slots_callHist L).
Qed.

End DispatcherFacts.

(** ** Reaping *)

(** C9, as the code has it. [background] registers the handler each time it
    runs, before it forks; one run of the handler is one blocking
    [waitpid]: it collects exactly one terminated child when there is one,
    returns at once when the shell has no child, and waits when children
    run but none has terminated.  It does not go round again. *)
Theorem handler_reaps_one_child :
  (∀ argv p os st, ∃ t, trace_of (background argv p os) st = Signal :: t) ∧
  (∀ sigNum k,
     match handler sigNum k with
     | Reaped k' => terminated k = S (terminated k') ∧ running k' = running k
     | NoChild => terminated k = 0%nat ∧ running k = 0%nat
     | Blocks => terminated k = 0%nat ∧ running k ≠ 0%nat
     end).
Proof.
  split.
  - intros argv p os st. unfold trace_of, background. rewrite bind_eq. msimpl.
    destruct (if fork_ok os then _ else _) as [t r]. by exists t.
  - intros sigNum [r t]. unfold handler, waitpid_any. cbn.
    destruct t as [|t]; [destruct r as [|r]|]; cbn; auto.
Qed.

(** Two children have terminated before the handler runs: it returns with
    one of them still to be collected. *)
Lemma handler_leaves_terminated_child :
  handler SIGCHLD {| running := 0; terminated := 2 |} =
  Reaped {| running := 0; terminated := 1 |}.
Proof. reflexivity. Qed.

(** ** Instances *)

Lemma identifiers_monotonic_witness :
  Z.of_nat (length ["ls"; "pwd"]%string) + 1 < INT_MAX ∧
  last (listAll (appends (["ls"; "pwd"]%string ++ ["date"%string]) init)) =
    Some {| command := "date"; commandID := cmdID (appends ["ls"; "pwd"]%string init) |}.
Proof.
  split; [vm_compute; reflexivity|].
  refine (proj1 (proj2 (proj2
    (identifiers_monotonic tokenize ["ls"; "pwd"]%string "date" "!1" 0 os_ok _)))).
  vm_compute. reflexivity.
Defined.

Lemma history_lists_itself_witness :
  printed (trace_of (dispatch tokenize "history" 0 os_ok) (appends ["ls"%string] init)) =
    ["       1 ls
"; "       2 history
"]%string ∧
  printed (trace_of (dispatch tokenize "history" 0 os_ok)
             (appends (["ls"%string] ++ ["history"%string]) init)) =
    ["       1 ls
"; "       2 history
"; "       3 history
"]%string.
Proof.
  assert (Z.of_nat (length ["ls"%string]) + 2 < INT_MAX) as Hlen
    by (vm_compute; reflexivity).
  assert (Forall fits_command ["ls"%string]) as Hfit
    by (apply List.Forall_cons; [vm_compute; reflexivity|apply List.Forall_nil]).
  destruct (history_lists_itself tokenize ["ls"%string] 0 os_ok Hlen Hfit)
    as (_ & P1 & _ & _ & _ & P2 & _).
  split.
  - rewrite P1. vm_compute. reflexivity.
  - rewrite P2. vm_compute. reflexivity.
Defined.

Lemma recall_lookup_witness :
  (findByIdentifier 2 (appends twelve_commands init) = None ∧
   printed (trace_of (dispatch tokenize "!2" 0 os_ok) (appends twelve_commands init)) =
     ["!2: event not found
"]%string ∧
   snd (dispatch tokenize "!2" 0 os_ok (appends twelve_commands init)) =
     Ret 0 (appends twelve_commands init)) ∧
  ending (snd (dispatch tokenize "!12" 0 os_ok (appends twelve_commands init))) =
    inl (appends (twelve_commands ++ ["c12"%string]) init).
Proof.
  assert (Forall fits_command twelve_commands) as Hfit
    by (unfold twelve_commands; repeat (apply List.Forall_cons;
          [vm_compute; reflexivity|]); apply List.Forall_nil).
  split.
  - refine (proj1 (recall_lookup tokenize twelve_commands 2 "!2" 0 0 "!2" [] os_ok
                     _ Hfit _ _ _ _ _) _).
    + vm_compute. reflexivity.
    + unfold INT_MAX. lia.
    + reflexivity.
    + reflexivity.
    + reflexivity.
    + reflexivity.
    + right. right. vm_compute. discriminate.
  - destruct (proj2 (recall_lookup tokenize twelve_commands 12 "!12" 0 0 "!12" []
                       os_ok ltac:(vm_compute; reflexivity) Hfit
                       ltac:(unfold INT_MAX; lia) eq_refl eq_refl eq_refl eq_refl))
      as (i & text & argv & b & Htext & _ & _ & _ & _ & _ & Hend).
    + unfold ringSize. vm_compute. split; [discriminate|split; [reflexivity|discriminate]].
    + vm_compute in Htext. injection Htext as <-. exact Hend.
Defined.

Lemma blank_silent_bang_looked_up_witness :
  dispatch tokenize "   " 0 os_ok (appends ["ls"]%string init) =
    ([], Ret 0 (appends ["ls"]%string init)) ∧
  printed (trace_of (dispatch tokenize "!abc" 0 os_ok) (appends ["ls"]%string init)) =
    ["!abc: event not found" +:+ nl] ∧
  snd (dispatch tokenize "!abc" 0 os_ok (appends ["ls"]%string init)) =
    Ret 0 (appends ["ls"]%string init).
Proof.
  split.
  - refine (proj1 (blank_silent_bang_looked_up tokenize ["ls"]%string "   " 0 0 []
                     os_ok _ _ _) _); try reflexivity.
  - refine (proj2 (proj2 (blank_silent_bang_looked_up tokenize ["ls"]%string "!abc"
                     0 0 ["!abc"%string] os_ok _ _ _) "!abc"%string [] _ _) _);
      reflexivity.
Defined.

Lemma exec_failure_reported_and_recorded_witness :
  dispatch tokenize "nosuchprog -x" 0 os_noexec (appends ["ls"%string] init) =
    ([Forked [Execvp ["nosuchprog"; "-x"]%string false;
              Stdout "nosuchprog -x: command not found
"] (Some 0);
      Waitpid; SlotWrite 1; SlotWrite 1],
     Ret 0 (appends (["ls"%string] ++ ["nosuchprog -x"%string]) init)) ∧
  last (listAll (appends (["ls"%string] ++ ["nosuchprog -x"%string]) init)) =
    Some {| command := "nosuchprog -x"; commandID := 2 |}.
Proof.
  destruct (exec_failure_reported_and_recorded tokenize ["ls"%string]
              "nosuchprog -x" 0 "nosuchprog" ["-x"%string] os_noexec
              ("nosuchprog -x" +:+ nl) []
              ltac:(vm_compute; reflexivity) ltac:(vm_compute; reflexivity)
              eq_refl eq_refl eq_refl eq_refl eq_refl eq_refl eq_refl)
    as (H1 & H2 & _).
  split; [exact H1 | exact H2].
Defined.


Lemma ring_accesses_in_range_witness :
  ptr_ok (InRing 3) ∧
  Forall in_ring (slots (trace_of (callHist tokenize 4 (InRing 3) os_ok)
                           (appends ten_commands init))).
Proof.
  assert (ptr_ok (InRing 3)) as Hp by (unfold ptr_ok, in_ring, ringSize; lia).
  split; [exact Hp|].
  exact (proj2 (proj2 (proj2 (proj2 (proj2
    (ring_accesses_in_range tokenize ten_commands (InRing 3) 4 os_ok))) Hp))).
Defined.

(** The line [!abc]: the rest of the token is no number, and the shell
    answers with a message. *)
Lemma malformed_bang_prints_message :
  dispatch tokenize "!abc" 0 os_ok init =
  ([Stdout ("!abc: event not found" +:+ nl)], Ret 0 init).
Proof. reflexivity. Qed.

(** * Further properties of the code *)

(** ** The ring in closed form *)

(** [recHistory] adds exactly one to [ringCount] below the capacity and
    leaves it alone otherwise: the second increment inside the first branch
    is never reached. *)
Theorem recHistory_count_step (p : strptr) (st : shell) :
  - INT_MAX - 1 ≤ ringCount st ≤ INT_MAX →
  ringCount (shell_of (recHistory p) st) =
    if ringCount st <? ringSize then ringCount st + 1 else ringCount st.
Proof.
  unfold INT_MAX, ringSize. intros Hc. rewrite shell_of_recHistory.
  unfold rec_state. cbn [ringCount]. unfold ringSize.
  destruct (Z.ltb_spec (ringCount st) 10); [|done].
  apply wrap_int_small. lia.
Qed.

Lemma recHistory_count_step_witness :
  ringCount (shell_of (recHistory (Buf "ls")) (appends ten_commands init)) = 10 ∧
  ringCount (shell_of (recHistory (Buf "ls")) init) = 1.
Proof.
  split.
  - refine (recHistory_count_step (Buf "ls") (appends ten_commands init) _).
    vm_compute. split; discriminate.
  - refine (recHistory_count_step (Buf "ls") init _).
    vm_compute. split; discriminate.
Defined.

(** The three index globals after [n] recorded commands, whatever the
    commands are. *)
Theorem appends_globals (cmds : list string) :
  let n := Z.of_nat (length cmds) in
  let st := appends cmds init in
  ringCount st = Z.min n ringSize ∧
  ringEnd st = (if n <=? ringSize then 0 else n mod ringSize) ∧
  ringStart st = (if n =? 0 then -1 else (n - 1) mod ringSize).
Proof.
  unfold ringSize.
  induction cmds as [|c cmds IH] using rev_ind; [done|].
  cbv zeta in *. destruct IH as (Hc & He & Hs).
  rewrite appends_snoc, length_app. cbn [length].
  set (st := appends cmds init) in *.
  set (n := Z.of_nat (length cmds)) in *.
  replace (Z.of_nat (length cmds + 1)) with (n + 1) by lia.
  assert (0 ≤ n) as Hn by lia.
  unfold rec_state. cbn [ringCount ringEnd ringStart]. unfold ringSize.
  rewrite Hc, He, Hs.
  destruct (Z.ltb_spec (Z.min n 10) 10) as [Hlt|Hge].
  - assert (n < 10) as Hn10 by lia.
    rewrite wrap_int_small by lia.
    destruct (Z.leb_spec n 10); [|lia]. destruct (Z.leb_spec (n + 1) 10); [|lia].
    destruct (Z.eqb_spec (n + 1) 0); [lia|].
    split; [lia|]. split; [done|].
    destruct (Z.eqb_spec n 0) as [->|Hn0]; [done|].
    rewrite Z.mod_small by lia. rewrite indexer_step by (unfold ringSize; lia).
    rewrite Z.mod_small by lia. lia.
  - assert (10 ≤ n) as Hn10 by lia.
    destruct (Z.leb_spec (n + 1) 10); [lia|].
    destruct (Z.eqb_spec (n + 1) 0); [lia|]. destruct (Z.eqb_spec n 0); [lia|].
    split; [lia|].
    pose proof (Z.mod_pos_bound (n - 1) 10 ltac:(lia)).
    pose proof (Z.mod_pos_bound n 10 ltac:(lia)).
    split.
    + destruct (Z.leb_spec n 10).
      * assert (n = 10) as -> by lia. reflexivity.
      * rewrite indexer_mod by done. rewrite Zplus_mod_idemp_l. done.
    + rewrite indexer_mod by done. rewrite Zplus_mod_idemp_l.
      f_equal. lia.
Qed.

(** Slots outside the logical ring are never written: they keep no entry,
    however many commands are recorded. *)
Theorem outside_ring_untouched (cmds : list string) (i : Z) :
  ¬ in_ring i →
  ringBuffer (appends cmds init) !! i = None ∧
  slot (appends cmds init) i = zero_entry.
Proof.
  intros Hi.
  assert (ringBuffer (appends cmds init) !! i = None) as H.
  { induction cmds as [|c cmds IH] using rev_ind; [done|].
    rewrite appends_snoc. unfold rec_state. cbn [ringBuffer].
    destruct (appends_repr cmds) as [L Hr].
    pose proof (ring_repr_start _ _ Hr) as Hs.
    assert (in_ring (indexer (ringStart (appends cmds init)))) as Hin
      by (apply indexer_range; unfold ringSize; lia).
    rewrite lookup_insert_ne; [done|]. intros Heq. by rewrite Heq in Hin. }
  split; [exact H|]. unfold slot. by rewrite H.
Qed.

Lemma outside_ring_untouched_witness :
  ringBuffer (appends twelve_commands init) !! 10 = None ∧
  slot (appends twelve_commands init) 10 = zero_entry.
Proof.
  refine (outside_ring_untouched twelve_commands 10 _).
  unfold in_ring, ringSize. lia.
Defined.

(** [indexer] walks the ring in a cycle: from any index of the ring,
    [ringSize] steps come back to it and visit every slot exactly once. *)
Theorem indexer_cycle (i : Z) :
  in_ring i →
  Nat.iter (Z.to_nat ringSize) indexer i = i ∧
  NoDup (ring_indices (Z.to_nat ringSize) i) ∧
  ∀ j, in_ring j → j ∈ ring_indices (Z.to_nat ringSize) i.
Proof.
  unfold in_ring, ringSize. intros Hi.
  assert (i = 0 ∨ i = 1 ∨ i = 2 ∨ i = 3 ∨ i = 4 ∨ i = 5 ∨ i = 6 ∨ i = 7 ∨
          i = 8 ∨ i = 9) as Hcases by lia.
  assert (∀ j, 0 ≤ j < 10 →
            j = 0 ∨ j = 1 ∨ j = 2 ∨ j = 3 ∨ j = 4 ∨ j = 5 ∨ j = 6 ∨ j = 7 ∨
            j = 8 ∨ j = 9) as Hj by (intros; lia).
  repeat destruct Hcases as [->|Hcases]; try subst i;
    (split; [reflexivity|]; split; [compute_done|];
     intros j Hjr; apply Hj in Hjr;
     repeat destruct Hjr as [->|Hjr]; try subst j; compute_done).
Qed.

Lemma indexer_cycle_witness :
  Nat.iter (Z.to_nat ringSize) indexer 7 = 7 ∧
  NoDup (ring_indices (Z.to_nat ringSize) 7).
Proof.
  assert (in_ring 7) as H by (unfold in_ring, ringSize; lia).
  split.
  - exact (proj1 (indexer_cycle 7 H)).
  - exact (proj1 (proj2 (indexer_cycle 7 H))).
Defined.

Lemma lastn_fmap {A B} (f : A → B) k (l : list A) : f <$> lastn k l = lastn k (f <$> l).
Proof. unfold lastn. by rewrite fmap_drop, length_fmap. Qed.

Lemma appends_repr_texts cmds :
  ∃ L, ring_repr L (appends cmds init) ∧ command <$> L = lastn 10 cmds.
Proof.
  induction cmds as [|c cmds (L & Hr & HL)] using rev_ind.
  - exists []. split; [apply ring_repr_init | done].
  - rewrite appends_snoc. eexists. split; [by apply rec_state_repr|].
    rewrite lastn_fmap, fmap_app, HL. cbn [fmap list_fmap command].
    apply lastn_lastn_snoc.
Qed.

Lemma listAll_texts_aux (cmds : list string) :
  command <$> listAll (appends cmds init) = lastn (Z.to_nat ringSize) cmds ∧
  length (listAll (appends cmds init)) = Nat.min (length cmds) (Z.to_nat ringSize).
Proof.
  destruct (appends_repr_texts cmds) as (L & Hr & HL).
  rewrite (ring_repr_listAll _ _ Hr). change (Z.to_nat ringSize) with 10%nat.
  split; [exact HL|].
  rewrite <- (length_fmap command), HL, lastn_length. lia.
Qed.

(** The texts in the ring are the last [ringSize] recorded texts, in order,
    however many commands have been recorded, when each of them fits the
    [command] member. *)
Theorem listAll_texts (cmds : list string) :
  Forall fits_command cmds →
  command <$> listAll (appends cmds init) = lastn (Z.to_nat ringSize) cmds ∧
  length (listAll (appends cmds init)) = Nat.min (length cmds) (Z.to_nat ringSize).
Proof.
  intros _. destruct (appends_repr_texts cmds) as (L & Hr & HL).
  rewrite (ring_repr_listAll _ _ Hr). change (Z.to_nat ringSize) with 10%nat.
  split; [exact HL|].
  rewrite <- (length_fmap command), HL, lastn_length. lia.
Qed.

Lemma listAll_texts_witness :
  command <$> listAll (appends twelve_commands init) =
    ["c3"; "c4"; "c5"; "c6"; "c7"; "c8"; "c9"; "c10"; "c11"; "c12"]%string.
Proof.
  refine (proj1 (listAll_texts twelve_commands _)).
  unfold twelve_commands.
  repeat (apply List.Forall_cons; [vm_compute; reflexivity|]). apply List.Forall_nil.
Defined.

(** ** Reading a line *)

Lemma until_nl_app s rest :
  no_nl s = true → until_nl (s +:+ nl +:+ rest) = s.
Proof.
  induction s as [|c s IH]; intros Hs; [done|].
  cbn in Hs. apply andb_true_iff in Hs as [Hc Hs'].
  change (String c s +:+ nl +:+ rest) with (String c (s +:+ nl +:+ rest)).
  cbn [until_nl].
  destruct (Ascii.eqb c "010"); [done|]. f_equal. by apply IH.
Qed.

(** [cmdPrologue] prints the prompt and cuts the line at its first newline:
    for a non-empty text without newline, followed by a newline and
    anything else, the command line is the text. *)
Theorem cmdPrologue_strips_newline (s rest : string) (st : shell) :
  no_nl s = true →
  s ≠ EmptyString →
  strtok_nl (s +:+ nl +:+ rest) = s ∧
  cmdPrologue (s +:+ nl +:+ rest) st = ([Stdout "rashell> "], Ret s st).
Proof.
  intros Hs Hne.
  assert (strtok_nl (s +:+ nl +:+ rest) = s) as H.
  { destruct s as [|c s]; [done|].
    cbn in Hs. apply andb_true_iff in Hs as [Hc Hs'].
    change (String c s +:+ nl +:+ rest) with (String c (s +:+ nl +:+ rest)).
    cbn [strtok_nl].
    destruct (Ascii.eqb c "010"); [done|]. f_equal. by apply until_nl_app. }
  split; [exact H|].
  unfold cmdPrologue. msimpl. by rewrite H.
Qed.

Lemma cmdPrologue_strips_newline_witness :
  strtok_nl ("echo hi" +:+ nl +:+ EmptyString) = "echo hi"%string ∧
  cmdPrologue ("echo hi" +:+ nl +:+ EmptyString) init =
    ([Stdout "rashell> "], Ret "echo hi"%string init).
Proof.
  refine (cmdPrologue_strips_newline "echo hi" EmptyString init _ _).
  - reflexivity.
  - discriminate.
Defined.

(** When [fgets] has delivered newlines only, as for an empty input line,
    the buffer is left as it is: the command line is then not the empty
    string. *)
Theorem cmdPrologue_keeps_bare_newlines (s : string) (st : shell) :
  s ≠ EmptyString →
  only_nl s = true →
  strtok_nl s = s ∧
  s ≠ EmptyString ∧
  cmdPrologue s st = ([Stdout "rashell> "], Ret s st).
Proof.
  intros Hne Hs.
  assert (strtok_nl s = s) as H.
  { clear Hne. induction s as [|c s IH]; [done|].
    cbn in Hs. apply andb_true_iff in Hs as [Hc Hs'].
    cbn [strtok_nl]. rewrite Hc. f_equal. by apply IH. }
  split; [exact H|]. split; [exact Hne|].
  unfold cmdPrologue. msimpl. by rewrite H.
Qed.

Lemma cmdPrologue_keeps_bare_newlines_witness :
  strtok_nl nl = nl ∧ nl ≠ EmptyString ∧
  cmdPrologue nl init = ([Stdout "rashell> "], Ret nl init).
Proof.
  refine (cmdPrologue_keeps_bare_newlines nl init _ _).
  - discriminate.
  - reflexivity.
Defined.

(** ** The read-eval loop *)

Section LoopFacts.

Variable parseCommand : string → Z → list string * Z.

Lemma programCall_snd argv p bg os st :
  snd (programCall argv p bg os st) =
  if (String.eqb (str_at p st) "history" || fork_ok os)%bool
  then Ret tt (rec_state (str_at p st) st) else Exit (-1).
Proof.
  rewrite programCall_eq.
  destruct (String.eqb (str_at p st) "history"); cbn [orb snd].
  - by rewrite history_eq.
  - by destruct (fork_ok os).
Qed.

(** How one turn of the loop can end. *)
Lemma dispatch_outcome line bg os st :
  (∃ b, snd (dispatch parseCommand line bg os st) = Ret b st) ∨
  (∃ b text,
     snd (dispatch parseCommand line bg os st) = Ret b (rec_state text st) ∧
     (text = "history"%string ∨
      (text = line ∧ ∃ tok rest bg', parseCommand line bg = (tok :: rest, bg') ∧
                                     first_is_bang tok = false) ∨
      (∃ id i, findByIdentifier id st = Some i ∧ text = command (slot st i)))) ∨
  (snd (dispatch parseCommand line bg os st) = Exit (-1) ∧ fork_ok os = false).
Proof.
  destruct (String.eqb line "history") eqn:Hh.
  - apply String.eqb_eq in Hh as ->. rewrite dispatch_history. cbn [snd].
    right. left. exists bg, "history"%string. split; [done|by left].
  - destruct (parseCommand line bg) as [[|tok rest] bg'] eqn:Hp.
    + rewrite (dispatch_blank _ _ _ bg') by done. left. by exists bg'.
    + destruct (first_is_bang tok) eqn:Hb.
      * rewrite (dispatch_bang _ _ _ bg' tok rest) by done. cbn [snd].
        rewrite callHist_eq. cbv zeta.
        destruct (findByIdentifier _ st) as [i|] eqn:Hf.
        -- destruct (parseCommand (command (slot st i)) 0) as [argv b].
           cbn [snd]. rewrite programCall_snd. cbn [str_at].
           destruct (_ || fork_ok os)%bool eqn:Hor.
           ++ right. left. exists bg', (command (slot st i)). split; [done|].
              right. right. eauto.
           ++ right. right. split; [done|].
              apply orb_false_iff in Hor. tauto.
        -- cbn [snd]. left. by exists bg'.
      * rewrite (dispatch_program _ _ _ bg' tok rest) by done. cbn [snd].
        rewrite programCall_snd. cbn [str_at]. rewrite Hh. cbn [orb].
        destruct (fork_ok os) eqn:Hfork.
        -- right. left. exists bg', line. split; [done|].
           right. left. split; [done|]. eauto.
        -- right. right. done.
Qed.

(** When [fork] fails on a plain command the shell reports it and exits
    with status -1: nothing is recorded, the rest of the input is never
    read.  [background] has registered its handler by then. *)
Theorem fork_failure_is_fatal (line : string) (bg bg' : Z) (tok : string)
    (rest : list string) (os : os_reply) (st : shell) (raw : string)
    (more : list (string * os_reply)) :
  String.eqb line "history" = false →
  parseCommand line bg = (tok :: rest, bg') →
  first_is_bang tok = false →
  fork_ok os = false →
  strtok_nl raw = line →
  String.eqb line "exit" = false →
  let report :=
    (if bg' =? 0 then [] else [Signal]) ++
    [ForkFailed; Stdout ("error in forking" +:+ nl)] in
  dispatch parseCommand line bg os st = (report, Exit (-1)) ∧
  readCommand_from parseCommand ((raw, os) :: more) bg st =
    (Stdout "rashell> " :: report, Exit (-1)) ∧
  existsb is_slot_write report = false.
Proof.
  intros Hh Hp Hb Hfork Hraw Hexit report.
  assert (dispatch parseCommand line bg os st = (report, Exit (-1))) as Hd.
  { rewrite (dispatch_program _ _ _ bg' tok rest) by done.
    rewrite programCall_eq. cbn [str_at ptr_reads app]. rewrite Hh.
    unfold launch_events. rewrite Hfork. cbn [fst snd].
    by rewrite app_nil_r. }
  split; [exact Hd|]. split.
  - cbn [readCommand_from]. unfold cmdPrologue. msimpl.
    by rewrite Hraw, Hexit, Hd.
  - unfold report. by destruct (bg' =? 0).
Qed.

(** The line [exit] ends the loop: it is not recorded, nothing but the
    prompt is printed for it, and whatever follows it in the input makes no
    difference. *)
Theorem exit_stops_loop (pre post : list (string * os_reply)) (raw : string)
    (os : os_reply) (bg : Z) (st : shell) :
  strtok_nl raw = "exit"%string →
  readCommand_from parseCommand ((raw, os) :: post) bg st =
    ([Stdout "rashell> "], Ret tt st) ∧
  readCommand_from parseCommand (pre ++ (raw, os) :: post) bg st =
    readCommand_from parseCommand (pre ++ [(raw, os)]) bg st.
Proof.
  intros Hraw.
  assert (∀ post' bg' st',
            readCommand_from parseCommand ((raw, os) :: post') bg' st' =
            ([Stdout "rashell> "], Ret tt st')) as Hexit.
  { intros post' bg' st'. cbn [readCommand_from]. unfold cmdPrologue. msimpl.
    by rewrite Hraw. }
  split; [apply Hexit|].
  revert bg st. induction pre as [|[r o] pre IH]; intros bg st.
  - cbn [app]. by rewrite !Hexit.
  - cbn [app readCommand_from]. unfold cmdPrologue. msimpl.
    destruct (String.eqb (strtok_nl r) "exit"); [done|].
    destruct (dispatch parseCommand (strtok_nl r) bg o st) as [t [b st'|c]]; [|done].
    by rewrite IH.
Qed.

(** [programCall] on a text other than [history], when [fork] succeeds: the
    shell waits for the child exactly when the command is a foreground one,
    registers the handler exactly when it is a background one, and records
    the text in both cases. *)
Theorem background_is_not_awaited (argv : list string) (p : strptr) (bg : Z)
    (os : os_reply) (st : shell) :
  String.eqb (str_at p st) "history" = false →
  fork_ok os = true →
  existsb is_waitpid (trace_of (programCall argv p bg os) st) = (bg =? 0) ∧
  existsb is_signal (trace_of (programCall argv p bg os) st) = negb (bg =? 0) ∧
  snd (programCall argv p bg os st) = Ret tt (rec_state (str_at p st) st).
Proof.
  intros Hh Hfork. unfold trace_of. rewrite programCall_snd, programCall_eq.
  rewrite Hh, Hfork. cbn [fst orb]. unfold launch_events. rewrite Hfork.
  split_and!; [| |done]; destruct p, (bg =? 0); reflexivity.
Qed.

Lemma background_is_not_awaited_witness :
  existsb is_waitpid
    (trace_of (programCall ["sleep"; "1"]%string (Buf "sleep 1 &") 1 os_ok) init) = false ∧
  existsb is_signal
    (trace_of (programCall ["sleep"; "1"]%string (Buf "sleep 1 &") 1 os_ok) init) = true.
Proof.
  destruct (background_is_not_awaited ["sleep"; "1"]%string (Buf "sleep 1 &") 1
              os_ok init eq_refl eq_refl) as (H1 & H2 & _).
  split; [exact H1 | exact H2].
Defined.

(** Replaying a stored [history] line is the [history] command again: it
    records the text [history] and prints the listing of the ring that
    holds the new entry, as the line [history] itself does. *)
Theorem replay_of_history (cmds : list string) (k : nat) (line : string)
    (bg bg' : Z) (tok : string) (rest : list string) (os : os_reply) :
  Z.of_nat (length cmds) < INT_MAX →
  cmds !! k = Some "history"%string →
  (length cmds ≤ k + 10)%nat →
  String.eqb line "history" = false →
  parseCommand line bg = (tok :: rest, bg') →
  first_is_bang tok = true →
  atoi (from_second tok) = Z.of_nat k + 1 →
  let st := appends cmds init in
  observable (trace_of (dispatch parseCommand line bg os) st) =
    observable (trace_of (dispatch parseCommand "history" bg os) st) ∧
  printed (trace_of (dispatch parseCommand line bg os) st) =
    map format_entry (listAll (appends (cmds ++ ["history"%string]) init)) ∧
  snd (dispatch parseCommand line bg os st) =
    Ret bg' (appends (cmds ++ ["history"%string]) init).
Proof.
  intros Hlen Hk Hstored Hh Hp Hb Hatoi st.
  destruct (find_stored cmds k "history" Hlen Hk Hstored) as (i & Hf & _ & Hs).
  fold st in Hf, Hs.
  assert (command (slot st i) = "history"%string) as Hcmd by (by rewrite Hs).
  unfold trace_of.
  rewrite (dispatch_bang _ _ _ bg' tok rest) by done.
  rewrite Hatoi, callHist_eq, Hf. cbv zeta. rewrite Hcmd.
  destruct (parseCommand "history" 0) as [argv b]. cbn [fst snd].
  rewrite programCall_snd, programCall_eq. cbn [str_at]. rewrite Hcmd.
  cbn [String.eqb Ascii.eqb Bool.eqb orb fst].
  rewrite dispatch_history, !history_eq. cbn [fst snd str_at ptr_reads].
  rewrite Hcmd, appends_snoc. fold st.
  split_and!.
  - rewrite observable_app, observable_reads.
    change (SlotRead i :: ?t) with ([SlotRead i] ++ t).
    by rewrite !observable_app.
  - rewrite printed_app, printed_reads.
    change (SlotRead i :: ?t) with ([SlotRead i] ++ t).
    rewrite !printed_app, printed_listing. cbn [printed flat_map printed_ev app].
    unfold listAll. by rewrite map_map.
  - done.
Qed.

Lemma readCommand_from_cons raw os rest bg st :
  snd (readCommand_from parseCommand ((raw, os) :: rest) bg st) =
  if String.eqb (strtok_nl raw) "exit" then Ret tt st
  else match snd (dispatch parseCommand (strtok_nl raw) bg os st) with
       | Ret b st' => snd (readCommand_from parseCommand rest b st')
       | Exit c => Exit c
       end.
Proof.
  cbn [readCommand_from]. unfold cmdPrologue. msimpl.
  destruct (String.eqb (strtok_nl raw) "exit"); [done|].
  destruct (dispatch parseCommand (strtok_nl raw) bg os st) as [t [b st'|c]]; [|done].
  cbn [snd]. by destruct (readCommand_from parseCommand rest b st') as [t' r].
Qed.

Lemma elem_of_lastn {A} k (l : list A) x : x ∈ lastn k l → x ∈ l.
Proof.
  unfold lastn. intros [j Hj]%list_elem_of_lookup.
  rewrite lookup_drop in Hj. by eapply list_elem_of_lookup_2.
Qed.

(** A text found by the scan of [callHist] is one of the recorded texts. *)
Lemma found_text_recorded cmds id i :
  findByIdentifier id (appends cmds init) = Some i →
  command (slot (appends cmds init) i) ∈ cmds.
Proof.
  intros Hf. unfold findByIdentifier, find_slot in Hf.
  apply find_some in Hf as [Hin _].
  apply In_ring_indices_listAll in Hin as [j Hj].
  apply (elem_of_lastn 10). change 10%nat with (Z.to_nat ringSize).
  rewrite <- (proj1 (listAll_texts_aux cmds)).
  apply list_elem_of_fmap. eexists. split; [done|].
  by eapply list_elem_of_lookup_2.
Qed.

Lemma readCommand_from_records input :
  ∀ bg cmds st',
    Forall (recordable parseCommand) cmds →
    ending (snd (readCommand_from parseCommand input bg (appends cmds init))) = inl st' →
    ∃ more, st' = appends (cmds ++ more) init ∧
            (length more ≤ length input)%nat ∧
            Forall (recordable parseCommand) more.
Proof.
  induction input as [|[raw os] input IH]; intros bg cmds st' Hcmds Hend.
  - cbn in Hend. injection Hend as <-. exists []. rewrite app_nil_r.
    split_and!; [done|done|constructor].
  - rewrite readCommand_from_cons in Hend.
    destruct (String.eqb (strtok_nl raw) "exit") eqn:Hexit.
    { cbn in Hend. injection Hend as <-. exists []. rewrite app_nil_r.
      split_and!; [done|cbn; lia|constructor]. }
    apply String.eqb_neq in Hexit.
    destruct (dispatch_outcome (strtok_nl raw) bg os (appends cmds init))
      as [[b Hd]|[(b & text & Hd & Htext)|[Hd _]]]; rewrite Hd in Hend.
    + apply IH in Hend as (more & -> & Hlen & Hmore); [|done].
      exists more. split_and!; [done|cbn; lia|done].
    + assert (recordable parseCommand text) as Hrec.
      { destruct Htext as [->|[[-> (tok & rest & bg' & Hp & Hb)]|(id & i & Hf & ->)]].
        - by left.
        - right. split; [done|]. eauto 6.
        - apply found_text_recorded in Hf.
          rewrite Forall_forall in Hcmds. by apply Hcmds. }
      rewrite <- appends_snoc in Hend.
      apply IH in Hend as (more & -> & Hlen & Hmore).
      * exists (text :: more). rewrite <- app_assoc.
        split_and!; [done|cbn; lia|by constructor].
      * apply Forall_app. split; [done|]. by constructor.
    + done.
Qed.

(** Every state the loop returns with is the state after recording some
    list of texts from the start, at most one per input line. *)
Theorem readCommand_reaches_appends (input : list (string * os_reply)) (st' : shell) :
  ending (snd (readCommand parseCommand input init)) = inl st' →
  ∃ recorded, st' = appends recorded init ∧ (length recorded ≤ length input)%nat.
Proof.
  intros Hend.
  apply (readCommand_from_records input 0 []) in Hend as (more & -> & Hlen & _);
    [|constructor].
  by exists more.
Qed.

(** The ring never holds [exit], a line without a token, or a line whose
    first token starts with [!]: every stored text is [history] or a
    command line that went to [programCall]. *)
Theorem stored_texts_are_commands (input : list (string * os_reply)) (st' : shell) :
  ending (snd (readCommand parseCommand input init)) = inl st' →
  Forall (λ e, recordable parseCommand (command e)) (listAll st').
Proof.
  intros Hend.
  apply (readCommand_from_records input 0 []) in Hend as (more & -> & _ & Hmore);
    [|constructor].
  cbn [app]. apply Forall_forall. intros e He.
  assert (command e ∈ command <$> listAll (appends more init)) as Hx
    by (apply list_elem_of_fmap; eauto).
  rewrite (proj1 (listAll_texts_aux more)) in Hx. apply elem_of_lastn in Hx.
  rewrite Forall_forall in Hmore. by apply Hmore.
Qed.

Lemma readCommand_from_status input :
  ∀ bg st,
    match snd (readCommand_from parseCommand input bg st) with
    | Ret _ _ => True
    | Exit c => c = -1 ∧ Exists (λ x, fork_ok x.2 = false) input
    end.
Proof.
  induction input as [|[raw os] input IH]; intros bg st; [done|].
  rewrite readCommand_from_cons.
  destruct (String.eqb (strtok_nl raw) "exit"); [done|].
  destruct (dispatch_outcome (strtok_nl raw) bg os st)
    as [[b Hd]|[(b & text & Hd & _)|[Hd Hfork]]]; rewrite Hd.
  - specialize (IH b st).
    destruct (snd (readCommand_from parseCommand input b st)); [done|].
    destruct IH as [-> Hex]. split; [done|]. by apply Exists_cons_tl.
  - specialize (IH b (rec_state text st)).
    destruct (snd (readCommand_from parseCommand input b _)); [done|].
    destruct IH as [-> Hex]. split; [done|]. by apply Exists_cons_tl.
  - split; [done|]. by apply Exists_cons_hd.
Qed.

(** [main] returns 0 when the loop ends; the only other way the shell ends
    is status -1, and then [fork] has failed for some line.  No command
    line, found or not, and no failed [execvp] ends the shell. *)
Theorem main_status (input : list (string * os_reply)) (st : shell) :
  match snd (main parseCommand input st) with
  | Ret z _ => z = 0
  | Exit c => c = -1 ∧ Exists (λ x, fork_ok x.2 = false) input
  end.
Proof.
  unfold main, readCommand. rewrite bind_eq.
  pose proof (readCommand_from_status input 0 st) as H.
  destruct (readCommand_from parseCommand input 0 st) as [t [[] st'|c]]; cbn in *; done.
Qed.

(** [history] prints one line per stored entry, the one it has just added
    included: at least one line and never more than [ringSize]. *)
Theorem history_prints_count (cmds : list string) (bg : Z) (os : os_reply) :
  length (printed (trace_of (dispatch parseCommand "history" bg os) (appends cmds init))) =
  Nat.min (S (length cmds)) (Z.to_nat ringSize).
Proof.
  unfold trace_of. rewrite dispatch_history. cbn [fst].
  pose proof (printed_history (Buf "history") (appends cmds init)) as H.
  unfold trace_of in H. rewrite H. cbn [str_at].
  rewrite <- appends_snoc, length_map, (proj2 (listAll_texts_aux _)), length_app.
  cbn [length]. lia.
Qed.

(** Replaying the oldest entry of a full ring: [callHist] stops at the
    first slot it reads, the one at [ringEnd], and hands a pointer to it to
    [programCall]; this is the slot [recHistory] writes next, so the copy in
    [recHistory] has one slot as source and as destination. *)
Theorem replay_of_oldest_overwrites_itself (cmds : list string) (T : string) :
  Z.of_nat (length cmds) < INT_MAX →
  Forall fits_command cmds →
  (10 ≤ length cmds)%nat →
  cmds !! (length cmds - 10)%nat = Some T →
  let st := appends cmds init in
  let id := Z.of_nat (length cmds - 10) + 1 in
  indexer (ringStart st) = ringEnd st ∧
  (∀ p os argv b, parseCommand T 0 = (argv, b) →
     trace_of (callHist parseCommand id p os) st =
       SlotRead (ringEnd st) :: SlotRead (ringEnd st) ::
         trace_of (programCall argv (InRing (ringEnd st)) b os) st) ∧
  trace_of (recHistory (InRing (ringEnd st))) st =
    [SlotRead (ringEnd st); SlotWrite (ringEnd st); SlotWrite (ringEnd st)].
Proof.
  intros Hlen _ Hfull HT st id.
  pose proof Hlen as Hlen'. unfold INT_MAX in Hlen'.
  destruct (appends_numbered cmds Hlen) as [Hr Hid]. fold st in Hr, Hid.
  pose proof (ring_repr_end _ _ Hr) as He.
  pose proof Hr as (Hc & _ & _ & Hst & _).
  rewrite lastn_length, numbered_length in Hc, Hst.
  replace (Nat.min 10 (length cmds)) with 10%nat in Hc, Hst by lia.
  destruct (Hst eq_refl) as [_ Hstart].
  assert (indexer (ringStart st) = ringEnd st) as Hidx.
  { rewrite Hstart, indexer_mod by (by apply Z.mod_pos_bound).
    rewrite Zplus_mod_idemp_l.
    replace (ringEnd st + 9 + 1) with (ringEnd st + 1 * 10) by lia.
    rewrite Z_mod_plus_full. by apply Z.mod_small. }
  pose proof (stored_entry_inv cmds _ T Hlen HT ltac:(lia)) as H0.
  rewrite Nat.sub_diag in H0. fold st in H0.
  apply listAll_lookup in H0 as (i & Hi & Hslot).
  rewrite Hc in Hi. change (Z.to_nat (Z.of_nat 10)) with 10%nat in Hi.
  cbn in Hi. injection Hi as <-.
  assert (to_uint id = id) as Hu by (apply to_uint_small; unfold id; lia).
  assert ((commandID (slot st (ringEnd st)) =? to_uint id) = true) as Htest.
  { rewrite Hslot, Hu. cbn [commandID]. unfold id. apply Z.eqb_refl. }
  split_and!.
  - exact Hidx.
  - intros p os argv b HpT. unfold trace_of.
    rewrite callHist_eq. cbv zeta. unfold findByIdentifier, find_slot.
    rewrite Hc. change (Z.to_nat (Z.of_nat 10)) with 10%nat.
    cbn [ring_indices List.find scanned]. rewrite Htest.
    rewrite Hslot. cbn [command]. by rewrite HpT.
  - unfold trace_of. rewrite recHistory_eq. cbn [fst ptr_reads app]. by rewrite Hidx.
Qed.

End LoopFacts.

(** ** Instances for the loop *)

Lemma fork_failure_is_fatal_witness :
  readCommand_from tokenize
    [("sleep 1 &" +:+ nl, {| fork_ok := false; exec_ok := true |});
     ("ls" +:+ nl, os_ok)] 0 init =
  ([Stdout "rashell> "; Signal; ForkFailed; Stdout ("error in forking" +:+ nl)],
   Exit (-1)).
Proof.
  refine (proj1 (proj2 (fork_failure_is_fatal tokenize "sleep 1 &" 0 1 "sleep"
                          ["1"%string] {| fork_ok := false; exec_ok := true |} init
                          ("sleep 1 &" +:+ nl) [("ls" +:+ nl, os_ok)]
                          _ _ _ _ _ _)));
    reflexivity.
Defined.

Lemma exit_stops_loop_witness :
  readCommand_from tokenize
    ([("ls" +:+ nl, os_ok)] ++ ("exit" +:+ nl, os_ok) :: [("pwd" +:+ nl, os_ok)]) 0 init =
  readCommand_from tokenize
    ([("ls" +:+ nl, os_ok)] ++ [("exit" +:+ nl, os_ok)]) 0 init.
Proof.
  refine (proj2 (exit_stops_loop tokenize [("ls" +:+ nl, os_ok)]
                   [("pwd" +:+ nl, os_ok)] ("exit" +:+ nl) os_ok 0 init _)).
  reflexivity.
Defined.

Lemma replay_of_history_witness :
  snd (dispatch tokenize "!2" 0 os_ok (appends ["ls"; "history"]%string init)) =
  Ret 0 (appends (["ls"; "history"]%string ++ ["history"%string]) init).
Proof.
  refine (proj2 (proj2 (replay_of_history tokenize ["ls"; "history"]%string 1 "!2"
                          0 0 "!2" [] os_ok _ _ _ _ _ _ _))); try reflexivity.
  vm_compute. lia.
Defined.

Lemma readCommand_reaches_appends_witness :
  ∃ recorded,
    appends ["ls"; "ls"]%string init = appends recorded init ∧
    (length recorded ≤ 3)%nat.
Proof.
  refine (readCommand_reaches_appends tokenize
            [("ls" +:+ nl, os_ok); ("!1" +:+ nl, os_ok); ("exit" +:+ nl, os_ok)]
            (appends ["ls"; "ls"]%string init) _).
  vm_compute. reflexivity.
Defined.

Lemma stored_texts_are_commands_witness :
  Forall (λ e, recordable tokenize (command e))
         (listAll (appends ["ls"; "ls"]%string init)).
Proof.
  refine (stored_texts_are_commands tokenize
            [("ls" +:+ nl, os_ok); ("!1" +:+ nl, os_ok); ("exit" +:+ nl, os_ok)]
            (appends ["ls"; "ls"]%string init) _).
  vm_compute. reflexivity.
Defined.

Lemma replay_of_oldest_overwrites_itself_witness :
  indexer (ringStart (appends twelve_commands init)) =
    ringEnd (appends twelve_commands init) ∧
  trace_of (callHist tokenize 3 (Buf "!3") os_ok) (appends twelve_commands init) =
    SlotRead 2 :: SlotRead 2 ::
      trace_of (programCall ["c3"%string] (InRing 2) 0 os_ok) (appends twelve_commands init).
Proof.
  destruct (replay_of_oldest_overwrites_itself tokenize twelve_commands "c3")
    as (H1 & H2 & _).
  - vm_compute. reflexivity.
  - unfold twelve_commands.
    repeat (apply List.Forall_cons; [vm_compute; reflexivity|]). apply List.Forall_nil.
  - vm_compute. lia.
  - reflexivity.
  - split; [exact H1|].
    exact (H2 (Buf "!3") os_ok ["c3"%string] 0 eq_refl).
Defined.

(** ** What one call writes and prints *)

(** [recHistory] writes one slot, the one after [ringStart]: for a text
    that fits the [command] member it holds the text and the current
    [cmdID] afterwards, and every other slot keeps its entry.  This holds
    in every state, also when the text is read from the ring. *)
Theorem recHistory_writes_one_slot (p : strptr) (st : shell) (j : Z) :
  fits_command (str_at p st) →
  let st' := shell_of (recHistory p) st in
  slot st' (indexer (ringStart st)) =
    {| command := str_at p st; commandID := to_uint (cmdID st) |} ∧
  (j ≠ indexer (ringStart st) → slot st' j = slot st j).
Proof.
  intros _ st'. unfold st'. rewrite shell_of_recHistory.
  unfold rec_state, slot. cbn [ringBuffer]. split.
  - by rewrite lookup_insert_eq.
  - intros Hj. by rewrite lookup_insert_ne.
Qed.

Lemma recHistory_writes_one_slot_witness :
  slot (shell_of (recHistory (Buf "k")) (appends twelve_commands init)) 5 =
  slot (appends twelve_commands init) 5.
Proof.
  refine (proj2 (recHistory_writes_one_slot (Buf "k") (appends twelve_commands init) 5
                   _) _).
  - vm_compute. reflexivity.
  - vm_compute. discriminate.
Defined.

Lemma listing_events_no_write st idxs :
  existsb is_slot_write (listing_events st idxs) = false.
Proof. induction idxs as [|i idxs IH]; [done|]. cbn. exact IH. Qed.

(** The listing of [history] only reads: [history] leaves the globals as
    [recHistory] alone does, and what it prints is one line per slot it
    reads, after the two writes of [recHistory]. *)
Theorem history_listing_reads_only (p : strptr) (st : shell) :
  let st' := shell_of (recHistory p) st in
  shell_of (history p) st = st' ∧
  ∃ listing,
    trace_of (history p) st = trace_of (recHistory p) st ++ listing ∧
    existsb is_slot_write listing = false ∧
    printed listing = map format_entry (listAll st').
Proof.
  intros st'. unfold st', shell_of, trace_of.
  rewrite history_eq, recHistory_eq. cbn [fst snd]. split; [done|].
  eexists. split; [by rewrite <- app_assoc|]. split.
  - apply listing_events_no_write.
  - rewrite printed_listing. unfold listAll. by rewrite map_map.
Qed.

(** For a text other than [history], when [fork] succeeds, the only output
    [programCall] causes is the message of the child when [execvp] fails;
    a command that starts prints nothing from the shell's code, in the
    foreground and in the background. *)
Theorem programCall_output (argv : list string) (p : strptr) (bg : Z)
    (os : os_reply) (st : shell) :
  String.eqb (str_at p st) "history" = false →
  fork_ok os = true →
  printed (trace_of (programCall argv p bg os) st) =
    (if exec_ok os then []
     else [str_at p st +:+ ": command not found" +:+ String "010"%char EmptyString]).
Proof.
  intros Hh Hfork. unfold trace_of.
  rewrite programCall_eq, Hh, Hfork. cbn [fst].
  unfold launch_events, child_events. rewrite Hfork.
  destruct p, (bg =? 0), (exec_ok os); reflexivity.
Qed.

Lemma programCall_output_witness :
  printed (trace_of (programCall ["nosuchprog"]%string (Buf "nosuchprog &") 1 os_noexec) init) =
    ["nosuchprog &: command not found" +:+ nl] ∧
  printed (trace_of (programCall ["ls"]%string (Buf "ls") 0 os_ok) init) = [].
Proof.
  split.
  - exact (programCall_output ["nosuchprog"]%string (Buf "nosuchprog &") 1
             os_noexec init eq_refl eq_refl).
  - exact (programCall_output ["ls"]%string (Buf "ls") 0 os_ok init
             eq_refl eq_refl).
Defined.

(** The line [!4294967297] after one recorded [ls]: identifier 4294967297
    was never given out, [atoi] delivers the [int] 1, and the shell runs
    [ls] again and records it. *)
Lemma large_identifier_replays_entry_one :
  atoi "4294967297" = 1 ∧
  dispatch tokenize "!4294967297" 0 os_ok (appends ["ls"%string] init) =
  ([SlotRead 0; SlotRead 0; SlotRead 0;
    Forked [Execvp ["ls"%string] true] None; Waitpid;
    SlotRead 0; SlotWrite 1; SlotWrite 1],
   Ret 0 (appends ["ls"; "ls"]%string init)).
Proof. split; vm_compute; reflexivity. Qed.
